(** * Reconciliation controllers of tilt: a shallow embedding

  The development follows the Go sources:
  - [Restarton]: package [restarton] (the fetchers [Buttons] and
    [FileWatches] and the trigger computation: [LastStartEvent],
    [LastRestartEvent], [FilesChanged]);
  - [Configs]: package [configs] (the owned-object reconciler
    [updateOwnedObjects] / [toAPIObjects] / [getExistingAPIObjects] /
    [updateObjects] and the trigger-queue subscriber);
  - [Local]: package [local] (the process-server controller:
    [OnChange], [determineServers] and [reconcile]).

  Go maps are finite maps ([gmap]); [time.Time] values are compared only
  through [Before], [After] and [Equal], so an instant is an integer and
  the zero [time.Time{}] is [0]. *)

From Stdlib Require Import ZArith List Lia Ascii.
From stdpp Require Import base option list gmap strings sorting pretty.

#[local] Set Warnings "-clear-no-such-hyp".

(** ** Instants ([time.Time]) *)

Module Time.

Definition t := Z.
Definition zero : t := 0%Z.
Definition After (a b : t) : bool := (b <? a)%Z.
Definition Before (a b : t) : bool := (a <? b)%Z.
Definition Equal (a b : t) : bool := (a =? b)%Z.
Definition IsZero (a : t) : bool := (a =? 0)%Z.

End Time.

(** ** Package [restarton] *)

Module Restarton.

Local Open Scope Z_scope.

(** [v1alpha1.UIButton], with [Status.LastClickedAt]. *)
Record UIButton := mkUIButton {
  ButtonName : string;
  LastClickedAt : Time.t
}.

(** [v1alpha1.FileEvent]. *)
Record FileEvent := mkFileEvent {
  EventTime : Time.t;
  SeenFiles : list string
}.

(** [v1alpha1.FileWatch], with [Status.LastEventTime] and
    [Status.FileEvents]. *)
Record FileWatch := mkFileWatch {
  FileWatchName : string;
  LastEventTime : Time.t;
  FileEvents : list FileEvent
}.

Record RestartOnSpec := mkRestartOnSpec {
  FileWatches : list string;
  UIButtons : list string
}.

Record StartOnSpec := mkStartOnSpec {
  StartAfter : Time.t;
  StartUIButtons : list string
}.

#[global] Instance UIButton_eq_dec : EqDecision UIButton.
Proof. solve_decision. Defined.

(** *** [LastStartEvent] *)

(** One iteration of the loop over [startOn.UIButtons]; the accumulator
    is [(latestTime, latestButton)]. *)
Definition startStep (startOn : StartOnSpec) (buttons : gmap string UIButton)
    (acc : Time.t * option UIButton) (bn : string) : Time.t * option UIButton :=
  match buttons !! bn with
  | None => acc
  | Some b =>
      let lastEventTime := LastClickedAt b in
      if negb (Time.Before lastEventTime (StartAfter startOn))
         && Time.After lastEventTime (fst acc)
      then (lastEventTime, Some b)
      else acc
  end.

Definition LastStartEvent (startOn : option StartOnSpec)
    (buttons : gmap string UIButton) : Time.t * option UIButton :=
  match startOn with
  | None => (Time.zero, None)
  | Some s => fold_left (startStep s buttons) (StartUIButtons s) (Time.zero, None)
  end.

(** *** [LastRestartEvent] *)

(** The first loop: the running maximum over the file watches. *)
Definition fileWatchStep (fileWatches : gmap string FileWatch)
    (cur : Time.t) (fwn : string) : Time.t :=
  match fileWatches !! fwn with
  | None => cur
  | Some fw =>
      let lastEventTime := LastEventTime fw in
      if Time.After lastEventTime cur then lastEventTime else cur
  end.

(** The second loop: the accumulator is [(cur, latestButton)]. *)
Definition buttonStep (buttons : gmap string UIButton)
    (acc : Time.t * option UIButton) (bn : string) : Time.t * option UIButton :=
  match buttons !! bn with
  | None => acc
  | Some b =>
      let lastEventTime := LastClickedAt b in
      if Time.After lastEventTime (fst acc)
      then (lastEventTime, Some b)
      else acc
  end.

Definition LastRestartEvent (restartOn : option RestartOnSpec)
    (fileWatches : gmap string FileWatch) (buttons : gmap string UIButton)
    : Time.t * option UIButton :=
  match restartOn with
  | None => (Time.zero, None)
  | Some r =>
      let cur := fold_left (fileWatchStep fileWatches) (FileWatches r) Time.zero in
      fold_left (buttonStep buttons) (UIButtons r) (cur, None)
  end.

(** *** [FilesChanged] *)

(** Modelled from the spec: [sliceutils.DedupedAndSorted] is not among
    the sources; the spec says the result is deduplicated and sorted
    (Go sorts strings bytewise). *)
Definition DedupedAndSorted (l : list string) : list string :=
  merge_sort String.le (remove_dups l).

(** One iteration of the outer loop; the inner loop runs from the last
    event down to the first. *)
Definition filesStep (fileWatches : gmap string FileWatch) (lastBuild : Time.t)
    (filesChanged : list string) (fwn : string) : list string :=
  match fileWatches !! fwn with
  | None => filesChanged
  | Some fw =>
      fold_left
        (fun acc e =>
           if Time.After (EventTime e) lastBuild
           then acc ++ SeenFiles e
           else acc)
        (rev (FileEvents fw)) filesChanged
  end.

(** [restartOn] is dereferenced without a nil check: a nil spec panics,
    which is [None] here. *)
Definition FilesChanged (restartOn : option RestartOnSpec)
    (fileWatches : gmap string FileWatch) (lastBuild : Time.t)
    : option (list string) :=
  match restartOn with
  | None => None
  | Some r =>
      Some (DedupedAndSorted
              (fold_left (filesStep fileWatches lastBuild) (FileWatches r) []))
  end.

(** The buttons (file watches) a list of names resolves to, in order;
    names missing from the map are skipped. *)
Definition resolve {A} (m : gmap string A) (names : list string) : list A :=
  omap (fun n => m !! n) names.

(** *** [Buttons] and [FileWatches] *)

(** What [client.Get] returns for a button name and for a file-watch
    name: the object, or the message of an error. *)
Class Reader := {
  GetUIButton : string -> string + UIButton;
  GetFileWatch : string -> string + FileWatch
}.

(** The loop of [Buttons] over [buttonNames]; [fetched] lists the names
    [client.Get] was called with so far, oldest first. *)
Fixpoint buttonsLoop `{!Reader} (buttonNames : list string)
    (result : gmap string UIButton) (fetched : list string)
    : list string * (string + gmap string UIButton) :=
  match buttonNames with
  | [] => (fetched, inr result)
  | n :: buttonNames =>
      match result !! n with
      | Some _ => buttonsLoop buttonNames result fetched
      | None =>
          match GetUIButton n with
          | inl err => (fetched ++ [n], inl err)
          | inr b => buttonsLoop buttonNames (<[n := b]> result) (fetched ++ [n])
          end
      end
  end.

(** The names [Buttons] looks up: those of [startOn], then those of
    [restartOn]. *)
Definition buttonNames (restartOn : option RestartOnSpec) (startOn : option StartOnSpec)
    : list string :=
  match startOn with Some s => StartUIButtons s | None => [] end
  ++ match restartOn with Some r => UIButtons r | None => [] end.

(** [Buttons]: the names fetched, and the map or the error. *)
Definition Buttons `{!Reader} (restartOn : option RestartOnSpec)
    (startOn : option StartOnSpec) : list string * (string + gmap string UIButton) :=
  buttonsLoop (buttonNames restartOn startOn) ∅ [].

(** The loop of [FileWatches]: every name is fetched, also a repeated one. *)
Fixpoint fileWatchesLoop `{!Reader} (names : list string)
    (result : gmap string FileWatch) (fetched : list string)
    : list string * (string + gmap string FileWatch) :=
  match names with
  | [] => (fetched, inr result)
  | n :: names =>
      match GetFileWatch n with
      | inl err => (fetched ++ [n], inl err)
      | inr fw => fileWatchesLoop names (<[n := fw]> result) (fetched ++ [n])
      end
  end.

(** The function [FileWatches] (the name is taken by the field of the
    spec); the nil map returned for a nil spec reads like the empty
    map. *)
Definition FileWatchesOf `{!Reader} (restartOn : option RestartOnSpec)
    : list string * (string + gmap string FileWatch) :=
  match restartOn with
  | None => ([], inr ∅)
  | Some r => fileWatchesLoop (FileWatches r) ∅ []
  end.

End Restarton.

(** ** Package [configs] *)

Module Configs.

(** [schema.GroupVersionResource]: group, version and resource. *)
Record GroupVersionResource := mkGVR {
  Group : string;
  Version : string;
  Resource : string
}.

#[global] Instance GroupVersionResource_eq_dec : EqDecision GroupVersionResource.
Proof. solve_decision. Defined.

#[global] Instance GroupVersionResource_countable : Countable GroupVersionResource.
Proof.
  refine (inj_countable' (fun t => (Group t, Version t, Resource t))
            (fun p => mkGVR p.1.1 p.1.2 p.2) _).
  intros []; reflexivity.
Defined.

(** The [object] interface: a [ctrlclient.Object] with [GetSpec] and
    [GetGroupVersionResource].  The kinds share one type of specs. *)
Record object {Spec : Type} := mkObject {
  GetGroupVersionResource : GroupVersionResource;
  GetName : string;
  GetLabels : gmap string string;
  GetAnnotations : gmap string string;
  GetResourceVersion : string;
  GetSpec : Spec
}.
Arguments object : clear implicits.
Arguments mkObject {Spec}.

Definition SetResourceVersion {Spec} (rv : string) (o : object Spec) : object Spec :=
  mkObject (GetGroupVersionResource o) (GetName o) (GetLabels o) (GetAnnotations o)
    rv (GetSpec o).

(** [typedObjectSet] is [gmap string (object Spec)] and [objectSet] is
    [gmap GroupVersionResource (gmap string (object Spec))]. *)
Abbreviation typedObjectSet Spec := (gmap string (object Spec)).
Abbreviation objectSet Spec := (gmap GroupVersionResource (gmap string (object Spec))).

(** [apicmp.DeepEqual] on specs (package [apicmp] is not among the
    sources): the structural comparison is an operation of the spec type. *)
Class ApiCmp (Spec : Type) := DeepEqual : Spec -> Spec -> bool.

(** The constants of package [v1alpha1] that the reconciler uses, and
    [apis.SanitizeName]. *)
Class Scheme := {
  LabelOwnerKind : string;
  LabelOwnerKindTiltfile : string;
  AnnotationManifest : string;
  AnnotationSpanID : string;
  KubernetesApplyGVR : GroupVersionResource;
  ImageMapGVR : GroupVersionResource;
  FileWatchGVR : GroupVersionResource;
  SanitizeName : string -> string
}.

(** The part of [model.Manifest] that [toAPIObjects] reads: the name, the
    [KubernetesApplySpec] of the Kubernetes target when [IsK8s] holds,
    and the image targets with their name and [ImageMapSpec]. *)
Record ImageTarget {Spec : Type} := mkImageTarget {
  ImageName : string;
  ImageMapSpec : Spec
}.
Arguments ImageTarget : clear implicits.
Arguments mkImageTarget {Spec}.

Record Manifest {Spec : Type} := mkManifest {
  ManifestName : string;
  KubernetesApplySpec : option Spec;
  ImageTargets : list (ImageTarget Spec)
}.
Arguments Manifest : clear implicits.
Arguments mkManifest {Spec}.

(** [labels.SelectorFromSet]: every pair of the set is among the labels. *)
Definition Matches (selector labels : gmap string string) : Prop :=
  map_Forall (fun k v => labels !! k = Some v) selector.

#[global] Instance Matches_dec selector labels : Decision (Matches selector labels).
Proof. unfold Matches. apply _. Defined.

(** The [ctrlclient.Client] interface.  [client] is the state of the API
    server behind it; an error is its message.  A typed [List] under a
    label selector returns objects of the listed kind that match the
    selector. *)
Class Client (Spec : Type) := {
  client : Type;
  Create : object Spec -> client -> client * option string;
  Update : object Spec -> client -> client * option string;
  Delete : object Spec -> client -> client * option string;
  List : GroupVersionResource -> gmap string string -> client ->
         string + list (object Spec);
  List_sound : forall t selector cl items,
    List t selector cl = inr items ->
    Forall (fun o => GetGroupVersionResource o = t /\ Matches selector (GetLabels o)) items
}.

(** The order in which [range] visits a Go map is unspecified: every
    entry is visited once, in an order the runtime chooses. *)
Class RangeOrder := {
  range : forall {K} `{Countable K} {V}, gmap K V -> list (K * V);
  range_Permutation : forall K `{Countable K} V (m : gmap K V),
    range m ≡ₚ map_to_list m
}.

Section Reconciler.
Context {Spec : Type} `{!ApiCmp Spec} `{!Client Spec} `{!Scheme} `{!RangeOrder}.

Definition ownerSelector : gmap string string :=
  {[ LabelOwnerKind := LabelOwnerKindTiltfile ]}.

(** [toKubernetesApplyObjects], over [tlr.Manifests]. *)
Definition toKubernetesApplyObjects (manifests : list (Manifest Spec))
    : typedObjectSet Spec :=
  fold_left
    (fun result m =>
       match KubernetesApplySpec m with
       | None => result
       | Some spec =>
           let name := ManifestName m in
           let ka :=
             mkObject KubernetesApplyGVR name
               {[ LabelOwnerKind := LabelOwnerKindTiltfile ]}
               {[ AnnotationManifest := name;
                  AnnotationSpanID := "kubernetesapply:" +:+ name ]}
               "" spec in
           <[name := ka]> result
       end)
    manifests ∅.

(** [toImageMapObjects], over [tlr.Manifests]. *)
Definition toImageMapObjects (manifests : list (Manifest Spec))
    : typedObjectSet Spec :=
  fold_left
    (fun result m =>
       fold_left
         (fun result iTarget =>
            let name := SanitizeName (ImageName iTarget) in
            let im :=
              mkObject ImageMapGVR name
                {[ LabelOwnerKind := LabelOwnerKindTiltfile ]} ∅
                "" (ImageMapSpec iTarget) in
            <[name := im]> result)
         (ImageTargets m) result)
    manifests ∅.

(** [toAPIObjects]; [fileWatches] is what [ToFileWatchObjects] returns
    (it is defined in another file). *)
Definition toAPIObjects (manifests : list (Manifest Spec))
    (fileWatches : typedObjectSet Spec) : objectSet Spec :=
  let result : objectSet Spec := ∅ in
  let result := <[KubernetesApplyGVR := toKubernetesApplyObjects manifests]> result in
  let result := <[ImageMapGVR := toImageMapObjects manifests]> result in
  <[FileWatchGVR := fileWatches]> result.

(** The loop [for _, item := range list.Items { m[item.Name] = &item }]. *)
Definition itemsByName (items : list (object Spec)) : typedObjectSet Spec :=
  fold_left (fun m item => <[GetName item := item]> m) items ∅.

Definition getExistingAPIObjects (cl : client) : string + objectSet Spec :=
  let result : objectSet Spec := ∅ in
  match List KubernetesApplyGVR ownerSelector cl with
  | inl err => inl err
  | inr kaList =>
      let result := <[KubernetesApplyGVR := itemsByName kaList]> result in
      match List ImageMapGVR ownerSelector cl with
      | inl err => inl err
      | inr imList =>
          let result := <[ImageMapGVR := itemsByName imList]> result in
          match List FileWatchGVR ownerSelector cl with
          | inl err => inl err
          | inr fwList =>
              inr (<[FileWatchGVR := itemsByName fwList]> result)
          end
      end
  end.

(** A call made on the client. *)
Inductive call :=
| CallCreate (obj : object Spec)
| CallUpdate (obj : object Spec)
| CallDelete (obj : object Spec).

Definition callObject (c : call) : object Spec :=
  match c with CallCreate o | CallUpdate o | CallDelete o => o end.

Definition callVerb (c : call) : string :=
  match c with
  | CallCreate _ => "create"
  | CallUpdate _ => "update"
  | CallDelete _ => "delete"
  end.

Definition perform (c : call) (cl : client) : client * option string :=
  match c with
  | CallCreate o => Create o cl
  | CallUpdate o => Update o cl
  | CallDelete o => Delete o cl
  end.

(** The state of one run of [updateObjects]: the client, the calls made
    on it so far (oldest first) and the local slice [errs]. *)
Record run := mkRun {
  runClient : client;
  runCalls : list call;
  runErrs : list string
}.

(** [fmt.Errorf("<verb> %s/%s: %v", obj.GetGroupVersionResource().Resource,
    obj.GetName(), err)]. *)
Definition errorf (c : call) (err : string) : string :=
  callVerb c +:+ " " +:+ Resource (GetGroupVersionResource (callObject c))
    +:+ "/" +:+ GetName (callObject c) +:+ ": " +:+ err.

(** One client call followed by [if err != nil { errs = append(errs, ...) }]. *)
Definition attempt (c : call) (st : run) : run :=
  let '(cl, err) := perform c (runClient st) in
  mkRun cl (runCalls st ++ [c])
    (match err with
     | None => runErrs st
     | Some e => runErrs st ++ [errorf c e]
     end).

(** The body of the inner loop of "Upsert the new objects". *)
Definition upsertObject (oldObjects : objectSet Spec) (t : GroupVersionResource)
    (st : run) (entry : string * object Spec) : run :=
  let '(name, obj) := entry in
  let old :=
    match oldObjects !! t with
    | Some oldSet => oldSet !! name
    | None => None
    end in
  match old with
  | None => attempt (CallCreate obj) st
  | Some old =>
      if negb (DeepEqual (GetSpec old) (GetSpec obj))
      then attempt (CallUpdate (SetResourceVersion (GetResourceVersion old) obj)) st
      else st
  end.

(** The body of the inner loop of "Delete any objects that aren't in the
    new tiltfile". *)
Definition deleteObject (newObjects : objectSet Spec) (t : GroupVersionResource)
    (st : run) (entry : string * object Spec) : run :=
  let '(name, obj) := entry in
  match newObjects !! t with
  | Some newSet =>
      match newSet !! name with
      | Some _ => st
      | None => attempt (CallDelete obj) st
      end
  | None => attempt (CallDelete obj) st
  end.

(** [errors.NewAggregate]: nil for an empty list of errors. *)
Definition NewAggregate (errs : list string) : option (list string) :=
  match errs with
  | [] => None
  | _ => Some errs
  end.

Definition updateObjectsRun (cl : client) (newObjects oldObjects : objectSet Spec) : run :=
  let st := mkRun cl [] [] in
  let st :=
    fold_left
      (fun st ts => fold_left (upsertObject oldObjects ts.1) (range ts.2) st)
      (range newObjects) st in
  fold_left
    (fun st ts => fold_left (deleteObject newObjects ts.1) (range ts.2) st)
    (range oldObjects) st.

(** [updateObjects]: the client after the pass and the returned error. *)
Definition updateObjects (cl : client) (newObjects oldObjects : objectSet Spec)
    : client * option (list string) :=
  let st := updateObjectsRun cl newObjects oldObjects in
  (runClient st, NewAggregate (runErrs st)).

End Reconciler.

Arguments call : clear implicits.
Arguments run Spec {_}.

(** *** [updateOwnedObjects] *)

(** What the retry loop needs to know beyond the client: whether an
    error is a [*cache.ErrCacheNotStarted], and what the API server and
    its cache have become when [time.Sleep(200 * time.Millisecond)]
    returns. *)
Class Cache (Spec : Type) `{!Client Spec} := {
  IsErrCacheNotStarted : string -> bool;
  Sleep : client -> client
}.

Section OwnedObjects.
Context {Spec : Type} `{!ApiCmp Spec} `{!Client Spec} `{!Scheme} `{!RangeOrder}.
Context `{!Cache Spec}.

(** The loop "Retry until the cache has started"; [retriesLeft] is
    [5 - retryCount], and [sleeps] counts the calls of [time.Sleep]. *)
Fixpoint retryExisting (retriesLeft : nat) (cl : client) (sleeps : nat)
    : client * nat * (string + objectSet Spec) :=
  match getExistingAPIObjects cl with
  | inr existingObjects => (cl, sleeps, inr existingObjects)
  | inl err =>
      match retriesLeft with
      | S retriesLeft =>
          if IsErrCacheNotStarted err
          then retryExisting retriesLeft (Sleep cl) (S sleeps)
          else (cl, sleeps, inl err)
      | O => (cl, sleeps, inl err)
      end
  end.

(** [updateOwnedObjects]: the client afterwards, the number of sleeps,
    and the error of the listing ([inl]) or what [updateObjects]
    returned ([inr]). *)
Definition updateOwnedObjects (cl : client) (manifests : list (Manifest Spec))
    (fileWatches : typedObjectSet Spec)
    : client * nat * (string + option (list string)) :=
  let apiObjects := toAPIObjects manifests fileWatches in
  match retryExisting 5 cl 0 with
  | (cl, sleeps, inl err) => (cl, sleeps, inl err)
  | (cl, sleeps, inr existingObjects) =>
      let '(cl, err) := updateObjects cl apiObjects existingObjects in
      (cl, sleeps, inr err)
  end.

End OwnedObjects.

(** *** The trigger queue subscriber *)

(** [store.ManifestState], with the [TriggerReason] ([model.BuildReason],
    an [int] of flags). *)
Record ManifestState := mkManifestState {
  TriggerReason : Z
}.

(** [v1alpha1.UIResource], with [Status.DisableStatus.DisabledCount]. *)
Record UIResource := mkUIResource {
  DisabledCount : Z
}.

(** The part of [store.EngineState] the subscriber reads.
    [ManifestStates] is what [state.ManifestState(mn)] looks up. *)
Record EngineState := mkEngineState {
  TriggerQueue : list string;
  ManifestStates : gmap string ManifestState;
  UIResources : gmap string UIResource
}.

(** [v1alpha1.ConfigMap]. *)
Record ConfigMap := mkConfigMap {
  ConfigMapName : string;
  Data : gmap string string
}.

(** The levels of package [logger]. *)
Inductive Level := NoneLvl | VerboseLvl | DebugLvl | InfoLvl | WarnLvl | ErrorLvl.

(** The actions the subscriber dispatches: [store.LogAction] (manifest
    name, span id, level, message) and [RemoveFromTriggerQueueAction]. *)
Inductive Action :=
| LogAction (mn : string) (spanID : string) (level : Level) (msg : string)
| RemoveFromTriggerQueueAction (Name : string).

#[global] Instance Level_eq_dec : EqDecision Level.
Proof. solve_decision. Defined.

#[global] Instance Action_eq_dec : EqDecision Action.
Proof. solve_decision. Defined.

(** The client as [controllerutil.CreateOrUpdate] uses it: one upsert of
    a [ConfigMap], which may fail. *)
Class ConfigMapClient := {
  configMaps : Type;
  CreateOrUpdate : ConfigMap -> configMaps -> configMaps * option string
}.

(** Modelled from the spec: [apicmp.DeepEqual] is not among the sources;
    on the data of two documents the spec compares field for field, which
    for maps from strings to strings is equality of the maps. *)
Definition DeepEqualData (a b : gmap string string) : bool := bool_decide (a = b).

Section TriggerQueue.
(** [configmap.TriggerQueueName], and [strconv.Quote] (the verb [%q]). *)
Context (TriggerQueueName : string) (Quote : string -> string).
Context `{!ConfigMapClient}.

Record TriggerQueueSubscriber := mkTriggerQueueSubscriber {
  lastUpdate : option ConfigMap
}.

Definition NewTriggerQueueSubscriber : TriggerQueueSubscriber :=
  mkTriggerQueueSubscriber None.

(** The body of the loop of [fromState], at index [i] and name [v]. *)
Definition fromStateStep (state : EngineState) (data : gmap string string)
    (iv : nat * string) : gmap string string :=
  let '(i, v) := iv in
  let data := <[pretty i +:+ "-name" := v]> data in
  match ManifestStates state !! v with
  | None => data
  | Some ms => <[pretty i +:+ "-reason-code" := pretty (TriggerReason ms)]> data
  end.

Definition fromState (state : EngineState) : ConfigMap :=
  mkConfigMap TriggerQueueName
    (fold_left (fromStateStep state) (imap pair (TriggerQueue state)) ∅).

(** The body of the loop of [removeDisabledManifests]; [dispatched] is what
    was dispatched so far. *)
Definition removeDisabledStep (state : EngineState) (dispatched : list Action)
    (mn : string) : list Action :=
  match UIResources state !! mn with
  | Some uir =>
      if (0 <? DisabledCount uir)%Z
      then dispatched
           ++ [LogAction mn ("unqueue:" +:+ mn) InfoLvl
                 ("Will not build resource " +:+ Quote mn +:+ ": it is disabled");
               RemoveFromTriggerQueueAction mn]
      else dispatched
  | None => dispatched
  end.

Definition removeDisabledManifests (state : EngineState) : list Action :=
  fold_left (removeDisabledStep state) (TriggerQueue state) [].

(** One call of [OnChange]: the subscriber and the client after it, the
    actions dispatched, the objects passed to [CreateOrUpdate] (with the
    data the mutate function sets) and the returned error. *)
Record pass := mkPass {
  passSubscriber : TriggerQueueSubscriber;
  passClient : configMaps;
  passDispatched : list Action;
  passWrites : list ConfigMap;
  passErr : option string
}.

Definition OnChange (s : TriggerQueueSubscriber) (cl : configMaps)
    (state : EngineState) (isLogOnly : bool) : pass :=
  if isLogOnly then mkPass s cl [] [] None
  else
    let dispatched := removeDisabledManifests state in
    let cm := fromState state in
    if match lastUpdate s with
       | Some last => DeepEqualData (Data cm) (Data last)
       | None => false
       end
    then mkPass s cl dispatched [] None
    else
      let obj := mkConfigMap (ConfigMapName cm) (Data cm) in
      let '(cl', err) := CreateOrUpdate obj cl in
      match err with
      | Some e => mkPass s cl' dispatched [obj] (Some e)
      | None => mkPass (mkTriggerQueueSubscriber (Some obj)) cl' dispatched [obj] None
      end.

End TriggerQueue.

End Configs.

(** ** Package [local] *)

Module Local.

(** The constants and helpers of other files that [reconcile] uses:
    [v1alpha1.AnnotationSpanID], [v1alpha1.LabelManifest] and
    [SpanIDForServeLog]. *)
Class Names := {
  AnnotationSpanID : string;
  LabelManifest : string;
  SpanIDForServeLog : Z -> string
}.

Section Server.
(** [v1alpha1.Probe] is compared but never inspected. *)
Context {Probe : Type} `{!EqDecision Probe} `{!Names}.

Record CmdSpec := mkCmdSpec {
  Args : list string;
  Dir : string;
  Env : list string;
  ReadinessProbe : option Probe
}.

(** [CmdStatus.Terminated] is nil until the process has exited. *)
Record CmdStateTerminated := mkCmdStateTerminated {
  ExitCode : Z
}.

Record CmdStatus := mkCmdStatus {
  Terminated : option CmdStateTerminated
}.

Record OwnerReference := mkOwnerReference {
  RefName : string;
  RefKind : string
}.

Record ObjectMeta := mkObjectMeta {
  Name : string;
  OwnerReferences : list OwnerReference;
  Annotations : gmap string string;
  Labels : gmap string string
}.

Record Cmd := mkCmd {
  CmdMeta : ObjectMeta;
  Spec : CmdSpec
}.

Record CmdServerSpec := mkCmdServerSpec {
  ServerArgs : list string;
  ServerDir : string;
  ServerEnv : list string;
  ServerReadinessProbe : option Probe;
  TriggerTime : Time.t
}.

Record CmdServerStatus := mkCmdServerStatus {
  CmdName : string;
  CmdStatusOf : CmdStatus
}.

Record CmdServer := mkCmdServer {
  ServerName : string;
  ServerSpec : CmdServerSpec;
  ServerStatus : CmdServerStatus
}.

Record ServerController := mkServerController {
  createdCmds : gmap string Cmd;
  createdTriggerTime : gmap string Time.t;
  deletingCmds : gmap string bool;
  cmdCount : Z
}.

Definition NewServerController : ServerController :=
  mkServerController ∅ ∅ ∅ 0.

Inductive Action :=
| CmdDeleteAction (name : string)
| CmdCreateAction (cmd : Cmd).

#[global] Instance CmdSpec_eq_dec : EqDecision CmdSpec.
Proof. solve_decision. Defined.

(** [equality.Semantic.DeepEqual] on two [CmdSpec]s. *)
Definition DeepEqual (a b : CmdSpec) : bool := bool_decide (a = b).

(** [reconcile]: the controller afterwards and the actions dispatched. *)
Definition reconcile (c : ServerController) (server : CmdServer)
    : ServerController * list Action :=
  let cmdSpec :=
    mkCmdSpec (ServerArgs (ServerSpec server)) (ServerDir (ServerSpec server))
      (ServerEnv (ServerSpec server)) (ServerReadinessProbe (ServerSpec server)) in
  let name := ServerName server in
  let created := createdCmds c !! name in
  let isCreated := bool_decide (is_Some created) in
  let triggerTime := default Time.zero (createdTriggerTime c !! name) in
  if match created with
     | Some created =>
         DeepEqual (Spec created) cmdSpec
         && Time.Equal triggerTime (TriggerTime (ServerSpec server))
     | None => false
     end
  then (c, [])
  else if isCreated && bool_decide (CmdName (ServerStatus server) = "")
  then (c, [])
  else if isCreated
          && bool_decide (Terminated (CmdStatusOf (ServerStatus server)) = None)
  then
    if negb (default false (deletingCmds c !! name))
    then (mkServerController (createdCmds c) (createdTriggerTime c)
            (<[name := true]> (deletingCmds c)) (cmdCount c),
          [CmdDeleteAction (CmdName (ServerStatus server))])
    else (c, [])
  else
    let count := (cmdCount c + 1)%Z in
    let cmdName := name +:+ "-serve-" +:+ pretty count in
    let spanID := SpanIDForServeLog count in
    let cmd :=
      mkCmd
        (mkObjectMeta cmdName [mkOwnerReference name "CmdServer"]
           {[ AnnotationSpanID := spanID ]} {[ LabelManifest := name ]})
        cmdSpec in
    (mkServerController (<[name := cmd]> (createdCmds c))
       (<[name := TriggerTime (ServerSpec server)]> (createdTriggerTime c))
       (<[name := false]> (deletingCmds c)) count,
     [CmdCreateAction cmd]).

End Server.

Arguments CmdSpec : clear implicits.
Arguments Cmd : clear implicits.
Arguments CmdServerSpec : clear implicits.
Arguments CmdServer : clear implicits.
Arguments ServerController : clear implicits.
Arguments Action : clear implicits.

(** *** [determineServers] and [OnChange] *)

Section Subscriber.
Context {Probe : Type} `{!EqDecision Probe} `{!Names} `{!Configs.RangeOrder}.

(** [model.Cmd], the command of a local target. *)
Record ServeCmd := mkServeCmd {
  Argv : list string;
  ServeDir : string;
  ServeEnv : list string
}.

Record LocalTarget := mkLocalTarget {
  ServeCmdOf : ServeCmd;
  LocalReadinessProbe : option Probe
}.

(** A manifest target as [determineServers] reads it: the name of the
    manifest, its local target when [Manifest.IsLocal()] holds, and
    [State.LastSuccessfulDeployTime]. *)
Record ManifestTarget := mkManifestTarget {
  TargetName : string;
  LocalTargetOf : option LocalTarget;
  LastSuccessfulDeployTime : Time.t
}.

(** What [determineServers] reads of the engine state: [state.Cmds], each
    Cmd with its [Status], and [state.Targets()]. *)
Record EngineState := mkEngineState {
  Cmds : gmap string (Cmd Probe * CmdStatus);
  Targets : list ManifestTarget
}.

(** [model.Cmd.Empty], which is defined in another package. *)
Context (Empty : ServeCmd -> bool).

(** The first loop of [determineServers]: the Cmds owned by a
    [CmdServer], by the name of the owner. *)
Definition ownedCmds (state : EngineState) : gmap string (Cmd Probe * CmdStatus) :=
  fold_left
    (fun ownedCmds kv =>
       fold_left
         (fun ownedCmds ref =>
            if bool_decide (RefKind ref <> "CmdServer") then ownedCmds
            else <[RefName ref := kv.2]> ownedCmds)
         (OwnerReferences (CmdMeta kv.2.1)) ownedCmds)
    (Configs.range (Cmds state)) ∅.

Definition determineServers (state : EngineState) : list (CmdServer Probe) :=
  let ownedCmds := ownedCmds state in
  fold_left
    (fun r mt =>
       match LocalTargetOf mt with
       | None => r
       | Some lt =>
           if Empty (ServeCmdOf lt) || Time.IsZero (LastSuccessfulDeployTime mt)
           then r
           else
             let name := TargetName mt in
             let spec :=
               mkCmdServerSpec (Argv (ServeCmdOf lt)) (ServeDir (ServeCmdOf lt))
                 (ServeEnv (ServeCmdOf lt)) (LocalReadinessProbe lt)
                 (LastSuccessfulDeployTime mt) in
             let status :=
               match ownedCmds !! name with
               | Some cmd => mkCmdServerStatus (Name (CmdMeta cmd.1)) cmd.2
               | None => mkCmdServerStatus "" (mkCmdStatus None)
               end in
             r ++ [mkCmdServer name spec status]
       end)
    (Targets state) [].

(** The loop of [OnChange] over the servers: the controller afterwards
    and the actions dispatched, oldest first. *)
Definition reconcileAll (servers : list (CmdServer Probe)) (c : ServerController Probe)
    : ServerController Probe * list (Action Probe) :=
  fold_left
    (fun st server => let r := reconcile st.1 server in (r.1, st.2 ++ r.2))
    servers (c, []).

Definition OnChange (c : ServerController Probe) (state : EngineState)
    (isLogOnly : bool) : ServerController Probe * list (Action Probe) :=
  if isLogOnly then (c, [])
  else reconcileAll (determineServers state) c.

End Subscriber.

Arguments ServeCmd : clear implicits.
Arguments LocalTarget : clear implicits.
Arguments ManifestTarget : clear implicits.
Arguments EngineState : clear implicits.

End Local.

(** * Properties of the trigger computation *)

Section RestartonProperties.
Import Restarton.
Local Open Scope Z_scope.

Implicit Types (buttons : gmap string UIButton) (fileWatches : gmap string FileWatch).

(** The strict running maximum over a list of buttons, restricted to the
    buttons accepted by [ok]: the shape shared by both button loops. *)
Definition scan (ok : UIButton -> bool) (acc : Time.t * option UIButton)
    (bs : list UIButton) : Time.t * option UIButton :=
  fold_left
    (fun acc b =>
       if ok b && Time.After (LastClickedAt b) (fst acc)
       then (LastClickedAt b, Some b) else acc)
    bs acc.

Lemma startStep_scan s buttons names acc :
  fold_left (startStep s buttons) names acc
  = scan (fun b => negb (Time.Before (LastClickedAt b) (StartAfter s))) acc
      (resolve buttons names).
Proof.
  revert acc. induction names as [|n names IH]; intros acc; [done|].
  cbn [fold_left]. rewrite IH. unfold resolve, startStep. simpl.
  destruct (buttons !! n) as [b|]; reflexivity.
Qed.

Lemma buttonStep_scan buttons names acc :
  fold_left (buttonStep buttons) names acc
  = scan (fun _ => true) acc (resolve buttons names).
Proof.
  revert acc. induction names as [|n names IH]; intros acc; [done|].
  cbn [fold_left]. rewrite IH. unfold resolve, buttonStep. simpl.
  destruct (buttons !! n) as [b|]; reflexivity.
Qed.

(** Either no accepted button is strictly after the starting time and the
    accumulator is returned unchanged, or the winner is the first accepted
    button that attains the largest accepted click time. *)
Lemma scan_spec ok t0 ob bs :
  ((forall b, b ∈ bs -> ok b = true -> LastClickedAt b <= t0)
   /\ scan ok (t0, ob) bs = (t0, ob))
  \/ (exists l1 b l2,
        bs = l1 ++ b :: l2 /\ ok b = true /\ t0 < LastClickedAt b
        /\ (forall x, x ∈ l1 -> ok x = true -> LastClickedAt x < LastClickedAt b)
        /\ (forall x, x ∈ l2 -> ok x = true -> LastClickedAt x <= LastClickedAt b)
        /\ scan ok (t0, ob) bs = (LastClickedAt b, Some b)).
Proof.
  induction bs as [|x bs IH] using rev_ind.
  - left. split; [|done]. intros b Hb. by apply elem_of_nil in Hb.
  - unfold scan in *. rewrite fold_left_app. cbn [fold_left].
    destruct IH as [[Hle ->]|(l1 & b & l2 & -> & Hok & Hlt & H1 & H2 & ->)]; cbn [fst].
    + destruct (ok x) eqn:Hx; cbn [andb].
      * unfold Time.After. destruct (Z.ltb_spec t0 (LastClickedAt x)).
        -- right. exists bs, x, []. repeat split; try done.
           ++ intros y Hy Hoky. specialize (Hle y Hy Hoky). lia.
           ++ intros y Hy. by apply elem_of_nil in Hy.
        -- left. split; [|done]. intros b [Hb| ->%list_elem_of_singleton]%elem_of_app _Hb; auto.
      * left. split; [|done].
        intros b [Hb| ->%list_elem_of_singleton]%elem_of_app Hb'; [auto|congruence].
    + destruct (ok x) eqn:Hx; cbn [andb].
      * unfold Time.After. destruct (Z.ltb_spec (LastClickedAt b) (LastClickedAt x)).
        -- right. exists (l1 ++ b :: l2), x, []. repeat split; try done; [lia| |].
           ++ intros y [Hy|[->|Hy]%elem_of_cons]%elem_of_app Hoky.
              ** specialize (H1 y Hy Hoky). lia.
              ** done.
              ** specialize (H2 y Hy Hoky). lia.
           ++ intros y Hy. by apply elem_of_nil in Hy.
        -- right. exists l1, b, (l2 ++ [x]). rewrite <-app_assoc. repeat split; try done.
           intros y [Hy| ->%list_elem_of_singleton]%elem_of_app Hoky; auto.
      * right. exists l1, b, (l2 ++ [x]). rewrite <-app_assoc. repeat split; try done.
        intros y [Hy| ->%list_elem_of_singleton]%elem_of_app Hoky; [auto|congruence].
Qed.

Lemma foldr_max_init (c x : Z) (l : list Z) :
  foldr Z.max (Z.max c x) l = Z.max x (foldr Z.max c l).
Proof. induction l as [|y l IH]; simpl; [lia|]. rewrite IH. lia. Qed.

Lemma foldr_max_app (c : Z) (l k : list Z) :
  foldr Z.max c (l ++ k) = foldr Z.max (foldr Z.max c l) k.
Proof.
  induction l as [|y l IH]; simpl; [done|].
  rewrite IH, (Z.max_comm y (foldr Z.max c l)), foldr_max_init. done.
Qed.

Lemma fileWatchStep_max fileWatches names c :
  fold_left (fileWatchStep fileWatches) names c
  = foldr Z.max c (LastEventTime <$> resolve fileWatches names).
Proof.
  revert c. induction names as [|n names IH]; intros c; [done|].
  cbn [fold_left]. rewrite IH. unfold resolve, fileWatchStep. simpl.
  destruct (fileWatches !! n) as [fw|]; simpl; [|done].
  unfold Time.After. rewrite <-foldr_max_init. f_equal.
  destruct (Z.ltb_spec c (LastEventTime fw)); lia.
Qed.

Lemma scan_all_max t0 ob bs :
  fst (scan (fun _ => true) (t0, ob) bs) = foldr Z.max t0 (LastClickedAt <$> bs).
Proof.
  revert t0 ob. induction bs as [|b bs IH]; intros t0 ob; [done|].
  unfold scan in *. cbn [fold_left fst andb]. simpl.
  rewrite <-foldr_max_init. unfold Time.After.
  destruct (Z.ltb_spec t0 (LastClickedAt b)); rewrite IH; f_equal; lia.
Qed.

(** C10: with a nil [StartOnSpec], [LastStartEvent] returns the zero time
    and no button whatever the button map is; with a nil [RestartOnSpec],
    [LastRestartEvent] returns the zero time and no button whatever the
    file-watch and button maps are. *)
Theorem nil_spec_zero_event buttons fileWatches :
  LastStartEvent None buttons = (Time.zero, None)
  /\ LastRestartEvent None fileWatches buttons = (Time.zero, None).
Proof. split; reflexivity. Qed.

(** C8 (as amended): a click is valid exactly when it is not before
    [StartAfter]; [LastStartEvent] returns the valid click with the largest
    time among those strictly after the zero time, with its button, the
    first one found winning a tie; when no referenced button has a valid
    click strictly after the zero time it returns the zero time and no
    button. *)
Theorem LastStartEvent_latest_valid_click s buttons :
  let bs := resolve buttons (StartUIButtons s) in
  let valid b := StartAfter s <= LastClickedAt b in
  ((forall b, b ∈ bs -> valid b -> LastClickedAt b <= Time.zero)
   /\ LastStartEvent (Some s) buttons = (Time.zero, None))
  \/ (exists l1 b l2,
        bs = l1 ++ b :: l2 /\ valid b /\ Time.zero < LastClickedAt b
        /\ (forall x, x ∈ l1 -> valid x -> LastClickedAt x < LastClickedAt b)
        /\ (forall x, x ∈ l2 -> valid x -> LastClickedAt x <= LastClickedAt b)
        /\ LastStartEvent (Some s) buttons = (LastClickedAt b, Some b)).
Proof.
  intros bs valid. unfold LastStartEvent. rewrite startStep_scan. fold bs.
  set (ok := fun b => negb (Time.Before (LastClickedAt b) (StartAfter s))).
  assert (Hok : forall b, ok b = true <-> valid b).
  { intros b. unfold ok, valid, Time.Before.
    destruct (Z.ltb_spec (LastClickedAt b) (StartAfter s)); simpl; split; (lia || done). }
  destruct (scan_spec ok Time.zero None bs)
    as [[Hle Hr]|(l1 & b & l2 & Hbs & Hb & Hlt & H1 & H2 & Hr)].
  - left. split; [|done]. intros b Hin Hv. apply Hle; [done|]. by apply Hok.
  - right. exists l1, b, l2. repeat split; try done.
    + by apply Hok.
    + intros x Hx Hv. apply H1; [done|]. by apply Hok.
    + intros x Hx Hv. apply H2; [done|]. by apply Hok.
Qed.

(** C8 (as stated) fails: a button that was never clicked (zero click
    time) under a zero [StartAfter] has a valid click, yet no button is
    returned. *)
Lemma LastStartEvent_zero_click_not_returned :
  let b1 := mkUIButton "b1" 0 in
  let s := mkStartOnSpec 0 ["b1"] in
  let buttons : gmap string UIButton := {["b1" := b1]} in
  ~ (forall b, b ∈ resolve buttons (StartUIButtons s) ->
       StartAfter s <= LastClickedAt b ->
       is_Some (snd (LastStartEvent (Some s) buttons))).
Proof.
  intros b1 s buttons H.
  destruct (H b1) as [w Hw].
  - vm_compute. apply list_elem_of_here.
  - simpl. lia.
  - vm_compute in Hw. discriminate.
Qed.

(** C4: [LastRestartEvent] returns the maximum of the referenced file
    watches' last event times and the referenced buttons' click times
    (the running maximum starts from the zero time).  A button is returned
    exactly when some referenced button's click is strictly after the
    file-watch maximum and after every button scanned before it; the
    returned button is the last one that strictly improved the running
    maximum; no button is returned exactly when the result is the
    file-watch maximum, in particular when the file-watch maximum is at
    least every click time. *)
Theorem LastRestartEvent_max_and_attribution r fileWatches buttons :
  let fws := resolve fileWatches (FileWatches r) in
  let bs := resolve buttons (UIButtons r) in
  let fwmax := foldr Z.max Time.zero (LastEventTime <$> fws) in
  let res := LastRestartEvent (Some r) fileWatches buttons in
  fst res = foldr Z.max Time.zero ((LastEventTime <$> fws) ++ (LastClickedAt <$> bs))
  /\ (is_Some (snd res) <->
      exists l1 b l2, bs = l1 ++ b :: l2 /\ fwmax < LastClickedAt b
        /\ forall x, x ∈ l1 -> LastClickedAt x < LastClickedAt b)
  /\ (forall w, snd res = Some w ->
      exists l1 l2, bs = l1 ++ w :: l2 /\ fwmax < LastClickedAt w
        /\ (forall x, x ∈ l1 -> LastClickedAt x < LastClickedAt w)
        /\ (forall x, x ∈ l2 -> LastClickedAt x <= LastClickedAt w)
        /\ fst res = LastClickedAt w)
  /\ (snd res = None <-> fst res = fwmax)
  /\ ((forall b, b ∈ bs -> LastClickedAt b <= fwmax) -> snd res = None).
Proof.
  intros fws bs fwmax res.
  assert (Hres : res = scan (fun _ => true) (fwmax, None) bs).
  { unfold res, LastRestartEvent. cbv zeta.
    rewrite buttonStep_scan, fileWatchStep_max. done. }
  assert (Hfst : fst res
                 = foldr Z.max Time.zero ((LastEventTime <$> fws) ++ (LastClickedAt <$> bs))).
  { rewrite Hres, scan_all_max, foldr_max_app. done. }
  split; [exact Hfst|]. clear Hfst. rewrite Hres. clear Hres res.
  destruct (scan_spec (fun _ => true) fwmax None bs)
    as [[Hle ->]|(l1 & b & l2 & Hbs & _ & Hlt & H1 & H2 & ->)]; cbn [fst snd].
  - split; [|split; [|split]].
    + split; [intros [? ?]; done|].
      intros (l1 & b & l2 & Hbs & Hlt & _). exfalso.
      assert (LastClickedAt b <= fwmax); [|lia].
      apply Hle; [|done]. rewrite Hbs. apply elem_of_app. right. apply list_elem_of_here.
    + intros w Hw. done.
    + done.
    + done.
  - split; [|split; [|split]].
    + split; [|by eexists].
      intros _. exists l1, b, l2. repeat split; auto.
    + intros w [= <-]. exists l1, l2. repeat split; auto.
    + split; [done|lia].
    + intros Hall. exfalso.
      assert (LastClickedAt b <= fwmax); [|lia].
      apply Hall. rewrite Hbs. apply elem_of_app. right. apply list_elem_of_here.
Qed.

Lemma LastRestartEvent_max_and_attribution_witness :
  let b1 := mkUIButton "b1" 5 in
  let b2 := mkUIButton "b2" 7 in
  let fw := mkFileWatch "fw" 7 [] in
  let r := mkRestartOnSpec ["fw"; "gone"] ["b1"; "b2"] in
  let res := LastRestartEvent (Some r) {["fw" := fw]} {["b1" := b1; "b2" := b2]} in
  fst res = 7 /\ snd res = None.
Proof.
  intros b1 b2 fw r res.
  pose proof (LastRestartEvent_max_and_attribution r {["fw" := fw]} {["b1" := b1; "b2" := b2]})
    as (Hmax & _ & _ & _ & Hnone).
  split.
  - unfold res. rewrite Hmax. vm_compute. reflexivity.
  - apply Hnone. intros b Hb. change (b ∈ [b1; b2]) in Hb.
    apply elem_of_cons in Hb as [->|Hb]; [vm_compute; discriminate|].
    apply elem_of_cons in Hb as [->|Hb]; [vm_compute; discriminate|].
    by apply elem_of_nil in Hb.
Defined.

(** A click strictly after the file-watch maximum is attributed to its
    button; of two such clicks the later one wins. *)
Example LastRestartEvent_example :
  LastRestartEvent (Some (mkRestartOnSpec ["fw"] ["b1"; "b2"; "b3"]))
    {["fw" := mkFileWatch "fw" 7 []]}
    {["b1" := mkUIButton "b1" 8; "b2" := mkUIButton "b2" 9; "b3" := mkUIButton "b3" 9]}
  = (9, Some (mkUIButton "b2" 9)).
Proof. vm_compute. reflexivity. Qed.

(** The inner loop of [filesStep] appends the files of the qualifying
    events, most recent first. *)
Definition eventFiles (lastBuild : Time.t) (fw : FileWatch) : list string :=
  e ← rev (FileEvents fw);
  if Time.After (EventTime e) lastBuild then SeenFiles e else [].

Lemma filesStep_inner lastBuild evs acc :
  fold_left
    (fun acc e => if Time.After (EventTime e) lastBuild then acc ++ SeenFiles e else acc)
    evs acc
  = acc ++ (e ← evs; if Time.After (EventTime e) lastBuild then SeenFiles e else []).
Proof.
  revert acc. induction evs as [|e evs IH]; intros acc; simpl.
  - by rewrite app_nil_r.
  - rewrite IH. destruct (Time.After (EventTime e) lastBuild); simpl; [|done].
    by rewrite app_assoc.
Qed.

Lemma filesStep_fold fileWatches lastBuild names acc :
  fold_left (filesStep fileWatches lastBuild) names acc
  = acc ++ (fw ← resolve fileWatches names; eventFiles lastBuild fw).
Proof.
  revert acc. induction names as [|n names IH]; intros acc; simpl.
  - by rewrite app_nil_r.
  - rewrite IH. unfold filesStep, resolve. simpl.
    destruct (fileWatches !! n) as [fw|]; simpl; [|done].
    rewrite filesStep_inner, <-app_assoc. done.
Qed.

Lemma DedupedAndSorted_spec l :
  Sorted String.le (DedupedAndSorted l)
  /\ NoDup (DedupedAndSorted l)
  /\ forall x, x ∈ DedupedAndSorted l <-> x ∈ l.
Proof.
  unfold DedupedAndSorted. split; [|split].
  - apply Sorted_merge_sort. apply _.
  - rewrite merge_sort_Permutation. apply NoDup_remove_dups.
  - intros x. rewrite merge_sort_Permutation. apply elem_of_remove_dups.
Qed.

(** C7: [FilesChanged] returns (without failing) the deduplicated, sorted
    union of the [SeenFiles] of every event strictly after [lastBuild] in
    the whole log of every referenced file watch; a referenced file watch
    missing from the map contributes nothing. *)
Theorem FilesChanged_dedup_sorted_union r fileWatches lastBuild :
  let fws := resolve fileWatches (FileWatches r) in
  exists files,
    FilesChanged (Some r) fileWatches lastBuild = Some files
    /\ files = DedupedAndSorted (fw ← fws; eventFiles lastBuild fw)
    /\ Sorted String.le files
    /\ NoDup files
    /\ forall f, f ∈ files <->
         exists fw e, fw ∈ fws /\ e ∈ FileEvents fw
                      /\ lastBuild < EventTime e /\ f ∈ SeenFiles e.
Proof.
  intros fws. eexists. split; [reflexivity|].
  rewrite filesStep_fold. cbn [app]. fold fws.
  destruct (DedupedAndSorted_spec (fw ← fws; eventFiles lastBuild fw)) as (Hs & Hn & Hin).
  split; [done|]. split; [done|]. split; [done|].
  intros f. rewrite Hin, list_elem_of_bind. unfold eventFiles. split.
  - intros (fw & Hf & Hfw). apply list_elem_of_bind in Hf as (e & Hf & He).
    exists fw, e. unfold Time.After in Hf.
    destruct (Z.ltb_spec lastBuild (EventTime e)); [|by apply elem_of_nil in Hf].
    repeat split; try done. apply list_elem_of_In. apply in_rev. by apply list_elem_of_In.
  - intros (fw & e & Hfw & He & Hlt & Hf). exists fw. split; [|done].
    apply list_elem_of_bind. exists e. split.
    + unfold Time.After. destruct (Z.ltb_spec lastBuild (EventTime e)); [done|lia].
    + apply list_elem_of_In. apply in_rev. rewrite rev_involutive. by apply list_elem_of_In.
Qed.

(** The example of the specification: events [(T+1, [a]); (T+3, [b])] and
    [lastBuild = T+2] give [[b]] (here [T = 100]). *)
Example FilesChanged_example :
  FilesChanged (Some (mkRestartOnSpec ["fw"; "gone"] []))
    {["fw" := mkFileWatch "fw" 103 [mkFileEvent 101 ["a"]; mkFileEvent 103 ["b"]]]}
    102
  = Some ["b"].
Proof. vm_compute. reflexivity. Qed.

End RestartonProperties.

(** * Properties of the fetchers [Buttons] and [FileWatches] *)

Section FetchProperties.
Import Restarton.
Context `{!Reader}.

Implicit Types (names fetched : list string).

(** The loop of [Buttons] when every name can be fetched. *)
Lemma buttonsLoop_ok names (result : gmap string UIButton) fetched :
  (forall n, n ∈ names -> exists b, GetUIButton n = inr b) ->
  exists m new,
    buttonsLoop names result fetched = (fetched ++ new, inr m)
    /\ NoDup new
    /\ (forall n, n ∈ new <-> n ∈ names /\ result !! n = None)
    /\ (forall n b, m !! n = Some b <->
          result !! n = Some b
          \/ (result !! n = None /\ n ∈ names /\ GetUIButton n = inr b)).
Proof.
  revert result fetched. induction names as [|x names IH]; intros result fetched Hget.
  - exists result, []. simpl. rewrite app_nil_r. split; [done|]. split; [constructor|].
    split.
    + intros n. rewrite elem_of_nil. naive_solver.
    + intros n b. split; [by left|]. intros [?|(_ & Hn & _)]; [done|].
      by apply elem_of_nil in Hn.
  - assert (Hget' : forall n, n ∈ names -> exists b, GetUIButton n = inr b).
    { intros n Hn. apply Hget. by right. }
    simpl. destruct (result !! x) as [bx|] eqn:Hx.
    + destruct (IH result fetched Hget') as (m & new & -> & Hnd & Hnew & Hm).
      exists m, new. split; [done|]. split; [done|]. split.
      * intros n. rewrite Hnew, elem_of_cons. split; [naive_solver|].
        intros ([->|Hn] & Hnone); [congruence|done].
      * intros n b. rewrite Hm, elem_of_cons. split; [naive_solver|].
        intros [?|(Hnone & [->|Hn] & Hb)]; [by left|congruence|naive_solver].
    + destruct (Hget x) as [b Hb]; [by left|]. rewrite Hb.
      destruct (IH (<[x := b]> result) (fetched ++ [x]) Hget')
        as (m & new & -> & Hnd & Hnew & Hm).
      exists m, (x :: new). split; [by rewrite <-app_assoc|]. split.
      { constructor; [|done]. rewrite Hnew, lookup_insert_eq. naive_solver. }
      split.
      * intros n. rewrite !elem_of_cons, Hnew.
        destruct (decide (n = x)) as [->|Hne].
        -- naive_solver.
        -- rewrite lookup_insert_ne by done. naive_solver.
      * intros n b'. rewrite Hm, elem_of_cons.
        destruct (decide (n = x)) as [->|Hne].
        -- rewrite lookup_insert_eq. split.
           ++ intros [[= <-]|(? & _)]; [|done]. right. naive_solver.
           ++ intros [?|(_ & _ & Hb')]; [congruence|]. left. congruence.
        -- rewrite lookup_insert_ne by done. naive_solver.
Qed.

(** The loop of [Buttons] up to the first name that cannot be fetched. *)
Lemma buttonsLoop_err l1 n l2 e (result : gmap string UIButton) fetched :
  (forall x, x ∈ l1 -> exists b, GetUIButton x = inr b) ->
  GetUIButton n = inl e ->
  (forall x, is_Some (result !! x) -> exists b, GetUIButton x = inr b) ->
  exists new,
    buttonsLoop (l1 ++ n :: l2) result fetched = (fetched ++ new ++ [n], inl e)
    /\ forall x, x ∈ new -> x ∈ l1.
Proof.
  intros Hl1 Hn. revert result fetched.
  induction l1 as [|x l1 IH]; intros result fetched Hres.
  - exists []. simpl. destruct (result !! n) as [b|] eqn:Hrn.
    + destruct (Hres n) as [b' Hb']; [by eexists|]. congruence.
    + rewrite Hn. split; [done|]. intros x Hx. by apply elem_of_nil in Hx.
  - assert (Hl1' : forall y, y ∈ l1 -> exists b, GetUIButton y = inr b).
    { intros y Hy. apply Hl1. by right. }
    simpl. destruct (result !! x) as [bx|] eqn:Hx.
    + destruct (IH Hl1' result fetched Hres) as (new & -> & Hnew).
      exists new. split; [done|]. intros y Hy. right. by apply Hnew.
    + destruct (Hl1 x) as [b Hb]; [by left|]. rewrite Hb.
      destruct (IH Hl1' (<[x := b]> result) (fetched ++ [x])) as (new & -> & Hnew).
      { intros y [by' Hy]. destruct (decide (y = x)) as [->|Hne]; [by eexists|].
        rewrite lookup_insert_ne in Hy by done. apply Hres. by eexists. }
      exists (x :: new). split; [by rewrite <-app_assoc|].
      intros y [->|Hy]%elem_of_cons; [by left|]. right. by apply Hnew.
Qed.

(** X1: when every referenced button can be fetched, [Buttons] succeeds;
    it fetches each distinct name of [startOn] and [restartOn] exactly
    once, and the map it returns holds exactly the referenced names, each
    with the button fetched for it. *)
Theorem Buttons_fetches_each_name_once restartOn startOn :
  (forall n, n ∈ buttonNames restartOn startOn -> exists b, GetUIButton n = inr b) ->
  exists m fetched,
    Buttons restartOn startOn = (fetched, inr m)
    /\ NoDup fetched
    /\ (forall n, n ∈ fetched <-> n ∈ buttonNames restartOn startOn)
    /\ (forall n b, m !! n = Some b <->
          n ∈ buttonNames restartOn startOn /\ GetUIButton n = inr b).
Proof.
  intros Hget. unfold Buttons.
  destruct (buttonsLoop_ok (buttonNames restartOn startOn) ∅ [] Hget)
    as (m & new & -> & Hnd & Hnew & Hm).
  exists m, new. split; [done|]. split; [done|]. split.
  - intros n. rewrite Hnew, lookup_empty. naive_solver.
  - intros n b. rewrite Hm, !lookup_empty. naive_solver.
Qed.

(** X2: [Buttons] stops at the first referenced button that cannot be
    fetched: it returns that error and no map, and fetches nothing listed
    after the failing name. *)
Theorem Buttons_fails_on_first_error restartOn startOn l1 n l2 e :
  buttonNames restartOn startOn = l1 ++ n :: l2 ->
  (forall x, x ∈ l1 -> exists b, GetUIButton x = inr b) ->
  GetUIButton n = inl e ->
  exists fetched,
    Buttons restartOn startOn = (fetched ++ [n], inl e)
    /\ forall x, x ∈ fetched -> x ∈ l1.
Proof.
  intros Hnames Hl1 Hn. unfold Buttons. rewrite Hnames.
  destruct (buttonsLoop_err l1 n l2 e ∅ [] Hl1 Hn) as (new & -> & Hnew).
  - intros x [b Hx]. by rewrite lookup_empty in Hx.
  - by exists new.
Qed.

(** The loop of [FileWatches] when every name can be fetched. *)
Lemma fileWatchesLoop_ok names (result : gmap string FileWatch) fetched :
  (forall n, n ∈ names -> exists fw, GetFileWatch n = inr fw) ->
  exists m,
    fileWatchesLoop names result fetched = (fetched ++ names, inr m)
    /\ forall n fw, m !! n = Some fw <->
         (n ∈ names /\ GetFileWatch n = inr fw) \/ (~ n ∈ names /\ result !! n = Some fw).
Proof.
  revert result fetched. induction names as [|x names IH]; intros result fetched Hget.
  - exists result. simpl. rewrite app_nil_r. split; [done|].
    intros n fw. rewrite elem_of_nil. naive_solver.
  - destruct (Hget x) as [fwx Hx]; [by left|]. simpl. rewrite Hx.
    destruct (IH (<[x := fwx]> result) (fetched ++ [x])) as (m & -> & Hm).
    { intros n Hn. apply Hget. by right. }
    exists m. split; [by rewrite <-app_assoc|].
    intros n fw. rewrite Hm, !elem_of_cons.
    destruct (decide (n = x)) as [->|Hne].
    + rewrite lookup_insert_eq. split.
      * intros [(? & ?)|(? & [= <-])]; left; naive_solver.
      * intros [(_ & Hfw)|(Hnot & _)]; [|naive_solver].
        destruct (decide (x ∈ names)); [left|right]; split; try done. congruence.
    + rewrite lookup_insert_ne by done. naive_solver.
Qed.

(** The loop of [FileWatches] up to the first name that cannot be fetched. *)
Lemma fileWatchesLoop_err l1 n l2 e (result : gmap string FileWatch) fetched :
  (forall x, x ∈ l1 -> exists fw, GetFileWatch x = inr fw) ->
  GetFileWatch n = inl e ->
  fileWatchesLoop (l1 ++ n :: l2) result fetched = (fetched ++ l1 ++ [n], inl e).
Proof.
  intros Hl1 Hn. revert result fetched.
  induction l1 as [|x l1 IH]; intros result fetched; simpl.
  - by rewrite Hn.
  - destruct (Hl1 x) as [fw Hx]; [by left|]. rewrite Hx, IH.
    + by rewrite <-app_assoc.
    + intros y Hy. apply Hl1. by right.
Qed.

(** X3: [FileWatches] fetches nothing for a nil spec; otherwise it
    fetches the referenced names in order, a repeated name again each
    time, and stops at the first one that cannot be fetched, returning
    that error; when all can be fetched the map holds exactly the
    referenced names. *)
Theorem FileWatches_fetches_in_order r :
  FileWatchesOf None = ([], inr ∅)
  /\ (forall l1 n l2 e,
      FileWatches r = l1 ++ n :: l2 ->
      (forall x, x ∈ l1 -> exists fw, GetFileWatch x = inr fw) ->
      GetFileWatch n = inl e ->
      FileWatchesOf (Some r) = (l1 ++ [n], inl e))
  /\ ((forall n, n ∈ FileWatches r -> exists fw, GetFileWatch n = inr fw) ->
      exists m,
        FileWatchesOf (Some r) = (FileWatches r, inr m)
        /\ forall n fw, m !! n = Some fw <-> n ∈ FileWatches r /\ GetFileWatch n = inr fw).
Proof.
  split; [done|]. split.
  - intros l1 n l2 e Hnames Hl1 Hn. unfold FileWatchesOf. rewrite Hnames.
    by rewrite (fileWatchesLoop_err l1 n l2 e ∅ [] Hl1 Hn).
  - intros Hget. unfold FileWatchesOf.
    destruct (fileWatchesLoop_ok (FileWatches r) ∅ [] Hget) as (m & -> & Hm).
    exists m. split; [done|]. intros n fw. rewrite Hm, lookup_empty. naive_solver.
Qed.

(** A map returned by the loop of [Buttons] holds every name of the loop,
    and what it holds beyond the initial map was fetched. *)
Lemma buttonsLoop_complete names (result : gmap string UIButton) fetched fetched' m :
  buttonsLoop names result fetched = (fetched', inr m) ->
  (forall n, n ∈ names -> is_Some (m !! n))
  /\ (forall n b, result !! n = Some b -> m !! n = Some b)
  /\ (forall n b, m !! n = Some b -> result !! n = Some b \/ GetUIButton n = inr b).
Proof.
  revert result fetched. induction names as [|x names IH]; intros result fetched; simpl.
  - intros [= _ <-]. split; [|by auto]. intros n Hn. by apply elem_of_nil in Hn.
  - destruct (result !! x) as [bx|] eqn:Hx.
    + intros (Hin & Hkeep & Hnew)%IH. split; [|done].
      intros n [->|Hn]%elem_of_cons; [|by apply Hin]. rewrite (Hkeep _ _ Hx). by eexists.
    + destruct (GetUIButton x) as [e|b] eqn:Hb; [done|].
      intros (Hin & Hkeep & Hnew)%IH. split; [|split].
      * intros n [->|Hn]%elem_of_cons; [|by apply Hin].
        rewrite (Hkeep x b); [by eexists|]. by rewrite lookup_insert_eq.
      * intros n b' Hn. apply Hkeep. rewrite lookup_insert_ne; [done|]. congruence.
      * intros n b' [Hn|Hn]%Hnew; [|by right].
        destruct (decide (n = x)) as [->|Hne].
        -- rewrite lookup_insert_eq in Hn. right. congruence.
        -- rewrite lookup_insert_ne in Hn by done. by left.
Qed.

Lemma resolve_Forall2 {A} (P : string -> A -> Prop) (m : gmap string A) names :
  (forall n, n ∈ names -> exists a, m !! n = Some a /\ P n a) ->
  Forall2 P names (resolve m names).
Proof.
  induction names as [|x names IH]; intros Hm; [constructor|].
  destruct (Hm x) as (a & Hx & Ha); [by left|].
  unfold resolve. simpl. rewrite Hx. simpl. constructor; [done|].
  apply IH. intros n Hn. apply Hm. by right.
Qed.

(** X4: a map returned by [Buttons] resolves every name of the two specs
    to the button fetched for it, so [LastStartEvent] and
    [LastRestartEvent] skip no referenced button as missing when they
    are given that map. *)
Theorem Buttons_result_resolves_all restartOn startOn fetched m names :
  Buttons restartOn startOn = (fetched, inr m) ->
  (forall n, n ∈ names -> n ∈ buttonNames restartOn startOn) ->
  Forall2 (fun n b => GetUIButton n = inr b) names (resolve m names).
Proof.
  intros (Hin & _ & Hnew)%buttonsLoop_complete Hsub.
  apply resolve_Forall2. intros n Hn.
  destruct (Hin n (Hsub n Hn)) as [b Hb]. exists b. split; [done|].
  destruct (Hnew n b Hb) as [Hempty|?]; [|done]. by rewrite lookup_empty in Hempty.
Qed.

(** X5: a map returned by [FileWatches] resolves every file watch the
    spec names, in order, to the object fetched for it: [LastRestartEvent]
    and [FilesChanged] skip none of them as missing. *)
Theorem FileWatches_result_resolves_all r fetched m :
  FileWatchesOf (Some r) = (fetched, inr m) ->
  Forall2 (fun n fw => GetFileWatch n = inr fw) (FileWatches r) (resolve m (FileWatches r)).
Proof.
  unfold FileWatchesOf. intros Hloop.
  assert (Hget : forall n, n ∈ FileWatches r -> exists fw, GetFileWatch n = inr fw).
  { revert Hloop. generalize (∅ : gmap string FileWatch) ([] : list string).
    induction (FileWatches r) as [|x names IH]; intros result fetched0; simpl.
    - intros _ n Hn. by apply elem_of_nil in Hn.
    - destruct (GetFileWatch x) as [e|fw] eqn:Hx; [done|].
      intros Hloop n [->|Hn]%elem_of_cons; [by eexists|]. by eapply IH. }
  destruct (fileWatchesLoop_ok (FileWatches r) ∅ [] Hget) as (m' & Hm' & Hlook).
  rewrite Hm' in Hloop. injection Hloop as _ <-.
  apply resolve_Forall2. intros n Hn. destruct (Hget n Hn) as [fw Hfw].
  exists fw. split; [|done]. apply Hlook. by left.
Qed.

End FetchProperties.

(** * Further properties of [FilesChanged] *)

Section FilesChangedProperties.
Import Restarton.
Local Open Scope Z_scope.

Implicit Types (fileWatches : gmap string FileWatch).

(** The files [FilesChanged] returns, by membership. *)
Lemma FilesChanged_elem r fileWatches lastBuild :
  exists files,
    FilesChanged (Some r) fileWatches lastBuild = Some files
    /\ Sorted String.le files
    /\ NoDup files
    /\ forall f, f ∈ files <->
         exists n fw e, n ∈ FileWatches r /\ fileWatches !! n = Some fw
                        /\ e ∈ FileEvents fw /\ lastBuild < EventTime e /\ f ∈ SeenFiles e.
Proof.
  eexists. split; [reflexivity|].
  rewrite filesStep_fold. cbn [app].
  destruct (DedupedAndSorted_spec
              (fw ← resolve fileWatches (FileWatches r); eventFiles lastBuild fw))
    as (Hs & Hn & Hin).
  split; [done|]. split; [done|].
  intros f. rewrite Hin, list_elem_of_bind. unfold eventFiles, resolve. split.
  - intros (fw & Hf & Hfw). apply list_elem_of_bind in Hf as (e & Hf & He).
    apply list_elem_of_omap in Hfw as (n & Hn' & Hfw).
    exists n, fw, e. unfold Time.After in Hf.
    destruct (Z.ltb_spec lastBuild (EventTime e)); [|by apply elem_of_nil in Hf].
    repeat split; try done. apply list_elem_of_In. apply in_rev. by apply list_elem_of_In.
  - intros (n & fw & e & Hn' & Hfw & He & Hlt & Hf). exists fw. split.
    + apply list_elem_of_bind. exists e. split.
      * unfold Time.After. destruct (Z.ltb_spec lastBuild (EventTime e)); [done|lia].
      * apply list_elem_of_In. apply in_rev. rewrite rev_involutive. by apply list_elem_of_In.
    + apply list_elem_of_omap. by exists n.
Qed.

(** X6: the later the build, the fewer files: every file [FilesChanged]
    reports for a build time is also reported for any earlier build
    time, and nothing is reported once no event of a referenced file
    watch is later than the build. *)
Theorem FilesChanged_antitone r fileWatches lastBuild lastBuild' files files' :
  lastBuild <= lastBuild' ->
  FilesChanged (Some r) fileWatches lastBuild = Some files ->
  FilesChanged (Some r) fileWatches lastBuild' = Some files' ->
  (forall f, f ∈ files' -> f ∈ files)
  /\ ((forall n fw e, n ∈ FileWatches r -> fileWatches !! n = Some fw ->
         e ∈ FileEvents fw -> EventTime e <= lastBuild') -> files' = []).
Proof.
  intros Hle Hfiles Hfiles'.
  destruct (FilesChanged_elem r fileWatches lastBuild) as (l & Hl & _ & _ & Hin).
  destruct (FilesChanged_elem r fileWatches lastBuild') as (l' & Hl' & _ & _ & Hin').
  rewrite Hfiles in Hl. rewrite Hfiles' in Hl'.
  injection Hl as <-. injection Hl' as <-. split.
  - intros f (n & fw & e & ? & ? & ? & ? & ?)%Hin'. apply Hin.
    exists n, fw, e. repeat split; try done. lia.
  - intros Hold. destruct files' as [|f files']; [done|]. exfalso.
    destruct (proj1 (Hin' f)) as (n & fw & e & Hn & Hfw & He & Hlt & _); [by left|].
    specialize (Hold n fw e Hn Hfw He). lia.
Qed.

(** X7: the result of [FilesChanged] depends only on which file watches
    the spec names and on what the map holds for them: the order of the
    names, a repeated name, and entries of the map that the spec does
    not name make no difference. *)
Theorem FilesChanged_order_independent r r' fileWatches fileWatches' lastBuild :
  (forall n, n ∈ FileWatches r <-> n ∈ FileWatches r') ->
  (forall n, n ∈ FileWatches r -> fileWatches !! n = fileWatches' !! n) ->
  FilesChanged (Some r) fileWatches lastBuild = FilesChanged (Some r') fileWatches' lastBuild.
Proof.
  intros Hnames Hmaps.
  destruct (FilesChanged_elem r fileWatches lastBuild) as (l & -> & Hs & Hnd & Hin).
  destruct (FilesChanged_elem r' fileWatches' lastBuild) as (l' & -> & Hs' & Hnd' & Hin').
  f_equal. apply (Sorted_unique String.le); [done|done|].
  apply NoDup_Permutation; [done|done|].
  intros f. rewrite Hin, Hin'. split.
  - intros (n & fw & e & Hn & Hfw & ?). exists n, fw, e.
    split; [by apply Hnames|]. split; [|done]. by rewrite <-Hmaps.
  - intros (n & fw & e & Hn & Hfw & ?). exists n, fw, e.
    apply Hnames in Hn. split; [done|]. split; [|done]. by rewrite Hmaps.
Qed.

End FilesChangedProperties.

(** ** A concrete reader *)

Section FetchExample.
Import Restarton.
Local Open Scope Z_scope.

(** A reader that knows every name but ["gone"]. *)
Definition exampleReader : Reader := {|
  GetUIButton n :=
    if decide (n = "gone") then inl "not found" else inr (mkUIButton n 5);
  GetFileWatch n :=
    if decide (n = "gone") then inl "not found"
    else inr (mkFileWatch n 3 [mkFileEvent 3 [n]])
|}.

Lemma Buttons_fetches_each_name_once_witness :
  let restartOn := Some (mkRestartOnSpec [] ["b"; "c"]) in
  let startOn := Some (mkStartOnSpec 0 ["a"; "b"]) in
  exists m fetched,
    @Buttons exampleReader restartOn startOn = (fetched, inr m)
    /\ NoDup fetched
    /\ (forall n, n ∈ fetched <-> n ∈ buttonNames restartOn startOn)
    /\ (forall n b, m !! n = Some b <->
          n ∈ buttonNames restartOn startOn /\ @GetUIButton exampleReader n = inr b).
Proof.
  intros restartOn startOn.
  apply (@Buttons_fetches_each_name_once exampleReader restartOn startOn).
  intros n Hn. change (n ∈ ["a"; "b"; "b"; "c"]) in Hn.
  exists (mkUIButton n 5). simpl.
  destruct (decide (n = "gone")) as [->|]; [|reflexivity].
  exfalso. revert Hn. rewrite !elem_of_cons, elem_of_nil.
  intros [?|[?|[?|[?|[]]]]]; discriminate.
Defined.

Lemma Buttons_fails_on_first_error_witness :
  exists fetched,
    @Buttons exampleReader (Some (mkRestartOnSpec [] ["gone"; "c"]))
      (Some (mkStartOnSpec 0 ["a"]))
    = (fetched ++ ["gone"], inl "not found")
    /\ forall x, x ∈ fetched -> x ∈ ["a"].
Proof.
  apply (@Buttons_fails_on_first_error exampleReader
           (Some (mkRestartOnSpec [] ["gone"; "c"])) (Some (mkStartOnSpec 0 ["a"]))
           ["a"] "gone" ["c"] "not found").
  - reflexivity.
  - intros x Hx. apply elem_of_cons in Hx as [->|Hx]; [|by apply elem_of_nil in Hx].
    exists (mkUIButton "a" 5). reflexivity.
  - reflexivity.
Defined.

Lemma Buttons_result_resolves_all_witness :
  Forall2 (fun n b => @GetUIButton exampleReader n = inr b) ["c"; "a"]
    (resolve {[ "a" := mkUIButton "a" 5; "b" := mkUIButton "b" 5;
                "c" := mkUIButton "c" 5 ]} ["c"; "a"]).
Proof.
  apply (@Buttons_result_resolves_all exampleReader
           (Some (mkRestartOnSpec [] ["b"; "c"])) (Some (mkStartOnSpec 0 ["a"; "b"]))
           ["a"; "b"; "c"]).
  - vm_compute. reflexivity.
  - intros n Hn. change (n ∈ ["a"; "b"; "b"; "c"]).
    revert Hn. rewrite !elem_of_cons, !elem_of_nil. tauto.
Defined.

Lemma FileWatches_result_resolves_all_witness :
  Forall2 (fun n fw => @GetFileWatch exampleReader n = inr fw) ["w"; "v"; "w"]
    (resolve {[ "v" := mkFileWatch "v" 3 [mkFileEvent 3 ["v"]];
                "w" := mkFileWatch "w" 3 [mkFileEvent 3 ["w"]] ]} ["w"; "v"; "w"]).
Proof.
  apply (@FileWatches_result_resolves_all exampleReader
           (mkRestartOnSpec ["w"; "v"; "w"] []) ["w"; "v"; "w"]).
  vm_compute. reflexivity.
Defined.

Lemma FilesChanged_antitone_witness :
  let r := mkRestartOnSpec ["fw"] [] in
  let fileWatches : gmap string FileWatch :=
    {[ "fw" := mkFileWatch "fw" 103 [mkFileEvent 101 ["a"]; mkFileEvent 103 ["b"]] ]} in
  (forall f, f ∈ ["b"] -> f ∈ ["a"; "b"])
  /\ ((forall n fw e, n ∈ FileWatches r -> fileWatches !! n = Some fw ->
         e ∈ FileEvents fw -> EventTime e <= 102) -> ["b"] = []).
Proof.
  intros r fileWatches.
  apply (FilesChanged_antitone r fileWatches 100 102 ["a"; "b"] ["b"]).
  - lia.
  - vm_compute. reflexivity.
  - vm_compute. reflexivity.
Defined.

Lemma FilesChanged_order_independent_witness :
  let fw1 := mkFileWatch "fw1" 103 [mkFileEvent 103 ["b"]] in
  let fw2 := mkFileWatch "fw2" 104 [mkFileEvent 104 ["a"]] in
  FilesChanged (Some (mkRestartOnSpec ["fw1"; "fw2"] []))
    {[ "fw1" := fw1; "fw2" := fw2 ]} 100
  = FilesChanged (Some (mkRestartOnSpec ["fw2"; "fw1"; "fw2"] ["x"]))
      {[ "fw1" := fw1; "fw2" := fw2; "fw3" := fw1 ]} 100.
Proof.
  intros fw1 fw2.
  apply (FilesChanged_order_independent
           (mkRestartOnSpec ["fw1"; "fw2"] [])
           (mkRestartOnSpec ["fw2"; "fw1"; "fw2"] ["x"])
           {[ "fw1" := fw1; "fw2" := fw2 ]}
           {[ "fw1" := fw1; "fw2" := fw2; "fw3" := fw1 ]} 100).
  - intros n. change (n ∈ ["fw1"; "fw2"] <-> n ∈ ["fw2"; "fw1"; "fw2"]).
    rewrite !elem_of_cons, !elem_of_nil. tauto.
  - intros n Hn. change (n ∈ ["fw1"; "fw2"]) in Hn.
    apply elem_of_cons in Hn as [->|Hn]; [vm_compute; reflexivity|].
    apply elem_of_cons in Hn as [->|Hn]; [vm_compute; reflexivity|].
    by apply elem_of_nil in Hn.
Defined.

End FetchExample.

(** * Properties of the owned-object reconciler *)

Section ReconcilerProperties.
Import Configs.
Context {Spec : Type} `{!ApiCmp Spec} `{!Client Spec} `{!Scheme} `{!RangeOrder}.

Implicit Types (newObjects oldObjects objs : objectSet Spec).
Implicit Types (t : GroupVersionResource) (name : string) (o obj : object Spec).
Implicit Types (c : call Spec) (cl : client) (st : run Spec).

(** The object stored under a kind and a name. *)
Definition lookupObject objs t name : option (object Spec) :=
  objs !! t ≫= fun s => s !! name.

(** The calls one entry of the desired set gives rise to, and the calls
    one entry of the actual set gives rise to. *)
Definition upsertCalls oldObjects t (entry : string * object Spec) : list (call Spec) :=
  match lookupObject oldObjects t entry.1 with
  | None => [CallCreate entry.2]
  | Some old =>
      if DeepEqual (GetSpec old) (GetSpec entry.2) then []
      else [CallUpdate (SetResourceVersion (GetResourceVersion old) entry.2)]
  end.

Definition deleteCalls newObjects t (entry : string * object Spec) : list (call Spec) :=
  match lookupObject newObjects t entry.1 with
  | Some _ => []
  | None => [CallDelete entry.2]
  end.

(** The calls of one pass, in the order of the two loops.  They depend on
    the two sets only, not on the client. *)
Definition plannedCalls newObjects oldObjects : list (call Spec) :=
  (range newObjects ≫= fun ts => range ts.2 ≫= upsertCalls oldObjects ts.1)
  ++ (range oldObjects ≫= fun ts => range ts.2 ≫= deleteCalls newObjects ts.1).

Definition attemptAll (calls : list (call Spec)) st : run Spec :=
  fold_left (fun st c => attempt c st) calls st.

(** Every call is performed on the client left by the previous one,
    whatever the previous results were. *)
Fixpoint performAll (calls : list (call Spec)) cl : client * list (option string) :=
  match calls with
  | [] => (cl, [])
  | c :: calls =>
      let '(cl1, r) := perform c cl in
      let '(cl2, rs) := performAll calls cl1 in
      (cl2, r :: rs)
  end.

(** The messages of the failed calls, in order. *)
Definition failures (calls : list (call Spec)) (results : list (option string)) : list string :=
  omap (fun cr => errorf cr.1 <$> cr.2) (zip calls results).

Lemma upsertObject_attemptAll oldObjects t st entry :
  upsertObject oldObjects t st entry = attemptAll (upsertCalls oldObjects t entry) st.
Proof.
  destruct entry as [name obj]. unfold upsertObject, upsertCalls, lookupObject. simpl.
  destruct (oldObjects !! t) as [oldSet|]; simpl; [|done].
  destruct (oldSet !! name) as [old|]; simpl; [|done].
  destruct (DeepEqual (GetSpec old) (GetSpec obj)); done.
Qed.

Lemma deleteObject_attemptAll newObjects t st entry :
  deleteObject newObjects t st entry = attemptAll (deleteCalls newObjects t entry) st.
Proof.
  destruct entry as [name obj]. unfold deleteObject, deleteCalls, lookupObject. simpl.
  destruct (newObjects !! t) as [newSet|]; simpl; [|done].
  destruct (newSet !! name) as [?|]; done.
Qed.

Lemma attemptAll_app calls1 calls2 st :
  attemptAll (calls1 ++ calls2) st = attemptAll calls2 (attemptAll calls1 st).
Proof. apply fold_left_app. Qed.

Lemma attemptAll_bind {A} (f : A -> list (call Spec)) (l : list A) st :
  fold_left (fun st x => attemptAll (f x) st) l st = attemptAll (l ≫= f) st.
Proof.
  revert st. induction l as [|x l IH]; intros st; [done|].
  cbn [fold_left]. rewrite IH, bind_cons, attemptAll_app. done.
Qed.

Lemma fold_left_ext {A B} (f g : A -> B -> A) (l : list B) (a : A) :
  (forall a b, f a b = g a b) -> fold_left f l a = fold_left g l a.
Proof.
  intros Hfg. revert a. induction l as [|b l IH]; intros a; [done|].
  cbn [fold_left]. rewrite Hfg. apply IH.
Qed.

Lemma loops_attemptAll
    (body : GroupVersionResource -> run Spec -> string * object Spec -> run Spec)
    (calls : GroupVersionResource -> string * object Spec -> list (call Spec))
    objs st :
  (forall t st entry, body t st entry = attemptAll (calls t entry) st) ->
  fold_left (fun st ts => fold_left (body ts.1) (range ts.2) st) (range objs) st
  = attemptAll (range objs ≫= fun ts => range ts.2 ≫= calls ts.1) st.
Proof.
  intros Hbody. rewrite <-attemptAll_bind. apply fold_left_ext.
  intros st' ts. rewrite <-attemptAll_bind. apply fold_left_ext.
  intros st'' entry. apply Hbody.
Qed.

Lemma updateObjectsRun_attemptAll cl newObjects oldObjects :
  updateObjectsRun cl newObjects oldObjects
  = attemptAll (plannedCalls newObjects oldObjects) (mkRun cl [] []).
Proof.
  unfold updateObjectsRun, plannedCalls. rewrite attemptAll_app.
  rewrite (loops_attemptAll (upsertObject oldObjects) (upsertCalls oldObjects))
    by (intros; apply upsertObject_attemptAll).
  rewrite (loops_attemptAll (deleteObject newObjects) (deleteCalls newObjects))
    by (intros; apply deleteObject_attemptAll).
  done.
Qed.

Lemma attemptAll_performAll calls st :
  attemptAll calls st
  = mkRun (performAll calls (runClient st)).1
          (runCalls st ++ calls)
          (runErrs st ++ failures calls (performAll calls (runClient st)).2).
Proof.
  revert st. induction calls as [|c calls IH]; intros st.
  - destruct st. simpl. unfold failures. simpl. by rewrite !app_nil_r.
  - unfold attemptAll in *. cbn [fold_left]. rewrite IH. clear IH.
    unfold attempt. cbn [performAll].
    destruct (perform c (runClient st)) as [cl1 r]. cbn [runClient runCalls runErrs].
    destruct (performAll calls cl1) as [cl2 rs]. cbn [fst snd].
    f_equal.
    + by rewrite <-app_assoc.
    + unfold failures. simpl. destruct r; simpl; [|done]. by rewrite <-app_assoc.
Qed.

Lemma performAll_length calls cl :
  length (performAll calls cl).2 = length calls.
Proof.
  revert cl. induction calls as [|c calls IH]; intros cl; [done|].
  cbn [performAll]. destruct (perform c cl) as [cl1 r].
  specialize (IH cl1). destruct (performAll calls cl1). simpl in *. by rewrite IH.
Qed.

Lemma failures_nil calls results :
  length results = length calls ->
  failures calls results = [] <-> Forall (fun r => r = None) results.
Proof.
  revert results. induction calls as [|c calls IH]; intros [|r results] Hlen;
    try discriminate.
  - split; [constructor|done].
  - unfold failures in *. simpl. injection Hlen as Hlen. destruct r as [e|]; simpl.
    + split; [done|]. intros Hall. by apply Forall_cons_1 in Hall as [? _].
    + rewrite IH by done. split; [by constructor|]. by intros [_ ?]%Forall_cons_1.
Qed.

(** C5: in one pass every planned call is attempted, whether or not the
    earlier ones failed; the pass returns the client as left by all the
    calls (nothing is undone) and the aggregate of the messages of the
    failed calls, which is nil exactly when every attempted call
    succeeded. *)
Theorem updateObjects_attempts_all_and_aggregates cl newObjects oldObjects :
  let calls := plannedCalls newObjects oldObjects in
  let outcome := performAll calls cl in
  runCalls (updateObjectsRun cl newObjects oldObjects) = calls
  /\ length outcome.2 = length calls
  /\ updateObjects cl newObjects oldObjects
     = (outcome.1, NewAggregate (failures calls outcome.2))
  /\ (snd (updateObjects cl newObjects oldObjects) = None
      <-> Forall (fun r => r = None) outcome.2).
Proof.
  intros calls outcome. unfold updateObjects.
  rewrite updateObjectsRun_attemptAll, attemptAll_performAll. cbn [runClient runCalls runErrs app].
  fold calls. fold outcome.
  split; [done|]. split; [apply performAll_length|]. split; [done|].
  cbn [snd]. rewrite <-failures_nil by apply performAll_length.
  fold calls. fold outcome. unfold NewAggregate.
  destruct (failures calls outcome.2); split; done.
Qed.

(** The identity a call is about. *)
Definition callKey c : GroupVersionResource * string :=
  (GetGroupVersionResource (callObject c), GetName (callObject c)).

(** A set is keyed when every object is stored under its own kind and
    name, as [toAPIObjects] and [getExistingAPIObjects] build their sets. *)
Definition keyed objs : Prop :=
  map_Forall (fun t s =>
    map_Forall (fun name o => GetGroupVersionResource o = t /\ GetName o = name) s) objs.

(** The object carries the owner label. *)
Definition owned o : Prop :=
  GetLabels o !! LabelOwnerKind = Some LabelOwnerKindTiltfile.

Lemma keyed_lookup objs t name o :
  keyed objs -> lookupObject objs t name = Some o ->
  GetGroupVersionResource o = t /\ GetName o = name.
Proof.
  unfold keyed, lookupObject. intros Hk Hl.
  destruct (objs !! t) as [s|] eqn:Hs; [|done]. simpl in Hl.
  exact (Hk t s Hs name o Hl).
Qed.

Lemma range_elem `{Countable K} {V} (m : gmap K V) k v :
  (k, v) ∈ range m <-> m !! k = Some v.
Proof. rewrite range_Permutation. apply elem_of_map_to_list. Qed.

Lemma range_NoDup `{Countable K} {V} (m : gmap K V) : NoDup (range m).
Proof. rewrite range_Permutation. apply NoDup_map_to_list. Qed.

Section FilterBind.
Context {A B : Type} (P : B -> Prop) `{!forall x, Decision (P x)}.

Lemma filter_none (l : list B) : (forall x, x ∈ l -> ~ P x) -> filter P l = [].
Proof.
  induction l as [|x l IH]; intros Hl; [done|].
  rewrite filter_cons_False by (apply Hl; left). apply IH.
  intros y Hy. apply Hl. by right.
Qed.

Lemma filter_all (l : list B) : (forall x, x ∈ l -> P x) -> filter P l = l.
Proof.
  induction l as [|x l IH]; intros Hl; [done|].
  rewrite filter_cons_True by (apply Hl; left). f_equal. apply IH.
  intros y Hy. apply Hl. by right.
Qed.

Lemma filter_bind_nil (f : A -> list B) (l : list A) :
  (forall x, x ∈ l -> filter P (f x) = []) -> filter P (l ≫= f) = [].
Proof.
  induction l as [|x l IH]; intros Hl; [done|].
  rewrite bind_cons, filter_app, (Hl x) by left. simpl. apply IH.
  intros y Hy. apply Hl. by right.
Qed.

Lemma filter_bind_one (f : A -> list B) (l : list A) (x : A) :
  NoDup l -> x ∈ l ->
  (forall y, y ∈ l -> y <> x -> filter P (f y) = []) ->
  filter P (l ≫= f) = filter P (f x).
Proof.
  induction l as [|a l IH]; intros Hnd Hx Hl; [by apply elem_of_nil in Hx|].
  apply NoDup_cons in Hnd as [Ha Hnd]. rewrite bind_cons, filter_app.
  apply elem_of_cons in Hx as [->|Hx].
  - rewrite filter_bind_nil, app_nil_r; [done|].
    intros y Hy. apply Hl; [by right|]. by intros ->.
  - rewrite (Hl a); [|left|by intros ->]. simpl. apply IH; [done..|].
    intros y Hy. apply Hl. by right.
Qed.

End FilterBind.

(** The calls about one identity, for loops whose calls are about the
    object of the entry they visit. *)
Lemma filter_key_loops
    (calls : GroupVersionResource -> string * object Spec -> list (call Spec))
    objs t0 n0 :
  keyed objs ->
  (forall t entry c, c ∈ calls t entry ->
     callKey c = (GetGroupVersionResource entry.2, GetName entry.2)) ->
  filter (fun c => callKey c = (t0, n0))
    (range objs ≫= fun ts => range ts.2 ≫= calls ts.1)
  = match lookupObject objs t0 n0 with
    | Some o => calls t0 (n0, o)
    | None => []
    end.
Proof.
  intros Hk Hcalls.
  assert (Hother : forall t s n o, objs !! t = Some s -> s !! n = Some o ->
            (t, n) <> (t0, n0) ->
            filter (fun c => callKey c = (t0, n0)) (calls t (n, o)) = []).
  { intros t s n o Hs Ho Hne. apply filter_none. intros c Hc Hkey.
    apply Hcalls in Hc. simpl in Hc.
    destruct (Hk t s Hs n o Ho) as [Ht Hn]. congruence. }
  unfold lookupObject. destruct (objs !! t0) as [s0|] eqn:Hs0; simpl.
  - rewrite (filter_bind_one _ _ _ (t0, s0)).
    + simpl. destruct (s0 !! n0) as [o|] eqn:Ho.
      * rewrite (filter_bind_one _ _ _ (n0, o)).
        -- apply filter_all. intros c Hc. apply Hcalls in Hc. simpl in Hc.
           destruct (Hk t0 s0 Hs0 n0 o Ho) as [Ht Hn]. congruence.
        -- apply range_NoDup.
        -- by apply range_elem.
        -- intros [n o'] Hin Hne. apply range_elem in Hin.
           apply (Hother t0 s0); [done..|]. congruence.
      * apply filter_bind_nil. intros [n o'] Hin. apply range_elem in Hin.
        apply (Hother t0 s0); [done..|]. congruence.
    + apply range_NoDup.
    + by apply range_elem.
    + intros [t s] Hin Hne. apply range_elem in Hin. simpl.
      apply filter_bind_nil. intros [n o'] Hin'. apply range_elem in Hin'.
      apply (Hother t s); [done..|]. intros [= -> ->]. congruence.
  - apply filter_bind_nil. intros [t s] Hin. apply range_elem in Hin. simpl.
    apply filter_bind_nil. intros [n o'] Hin'. apply range_elem in Hin'.
    apply (Hother t s); [done..|]. intros [= -> ->]. congruence.
Qed.

Lemma upsertCalls_key oldObjects t entry c :
  c ∈ upsertCalls oldObjects t entry ->
  callKey c = (GetGroupVersionResource entry.2, GetName entry.2).
Proof.
  unfold upsertCalls. destruct (lookupObject oldObjects t entry.1) as [old|].
  - destruct (DeepEqual _ _); [by intros ?%elem_of_nil|].
    by intros ->%list_elem_of_singleton.
  - by intros ->%list_elem_of_singleton.
Qed.

Lemma deleteCalls_key newObjects t entry c :
  c ∈ deleteCalls newObjects t entry ->
  callKey c = (GetGroupVersionResource entry.2, GetName entry.2).
Proof.
  unfold deleteCalls. destruct (lookupObject newObjects t entry.1).
  - by intros ?%elem_of_nil.
  - by intros ->%list_elem_of_singleton.
Qed.

(** The calls of a pass about one identity. *)
Definition callsAbout newObjects oldObjects t name : list (call Spec) :=
  match lookupObject newObjects t name, lookupObject oldObjects t name with
  | Some obj, None => [CallCreate obj]
  | Some obj, Some old =>
      if DeepEqual (GetSpec old) (GetSpec obj) then []
      else [CallUpdate (SetResourceVersion (GetResourceVersion old) obj)]
  | None, Some old => [CallDelete old]
  | None, None => []
  end.

Lemma plannedCalls_about newObjects oldObjects t name :
  keyed newObjects -> keyed oldObjects ->
  filter (fun c => callKey c = (t, name)) (plannedCalls newObjects oldObjects)
  = callsAbout newObjects oldObjects t name.
Proof.
  intros Hn Ho. unfold plannedCalls. rewrite filter_app.
  rewrite (filter_key_loops (upsertCalls oldObjects)) by (done || apply upsertCalls_key).
  rewrite (filter_key_loops (deleteCalls newObjects)) by (done || apply deleteCalls_key).
  unfold callsAbout, upsertCalls, deleteCalls. simpl.
  destruct (lookupObject newObjects t name) as [obj|],
           (lookupObject oldObjects t name) as [old|]; simpl; try done.
  by rewrite app_nil_r.
Qed.

Lemma itemsByName_lookup (items : list (object Spec)) name o :
  itemsByName items !! name = Some o -> o ∈ items /\ GetName o = name.
Proof.
  unfold itemsByName.
  cut (forall m : gmap string (object Spec),
         fold_left (fun m item => <[GetName item := item]> m) items m !! name = Some o ->
         (o ∈ items /\ GetName o = name) \/ m !! name = Some o).
  { intros Hcut Hl. destruct (Hcut ∅ Hl) as [?|Hm]; [done|].
    by rewrite lookup_empty in Hm. }
  induction items as [|item items IH]; intros m Hl; [by right|].
  cbn [fold_left] in Hl. destruct (IH _ Hl) as [[Hin Hn]|Hm].
  - left. split; [by right|done].
  - destruct (decide (GetName item = name)) as [Heq|Hne].
    + rewrite <-Heq, lookup_insert_eq in Hm. injection Hm as ->.
      left. split; [left|done].
    + rewrite lookup_insert_ne in Hm by done. by right.
Qed.

Lemma listed_keyed_owned t cl items name o :
  List t ownerSelector cl = inr items ->
  itemsByName items !! name = Some o ->
  (GetGroupVersionResource o = t /\ GetName o = name) /\ owned o.
Proof.
  intros Hlist Hl. apply itemsByName_lookup in Hl as [Hin Hn].
  apply List_sound in Hlist. rewrite Forall_forall in Hlist.
  destruct (Hlist o Hin) as [Ht Hm]. split; [done|].
  apply (Hm LabelOwnerKind). apply lookup_singleton_eq.
Qed.

(** What [getExistingAPIObjects] returns is keyed, and every object in it
    carries the owner label. *)
Lemma getExistingAPIObjects_keyed_owned cl actual :
  getExistingAPIObjects cl = inr actual ->
  keyed actual /\ forall t name o, lookupObject actual t name = Some o -> owned o.
Proof.
  unfold getExistingAPIObjects. intros Hget.
  destruct (List KubernetesApplyGVR ownerSelector cl) as [?|kaList] eqn:Hka; [done|].
  destruct (List ImageMapGVR ownerSelector cl) as [?|imList] eqn:Him; [done|].
  destruct (List FileWatchGVR ownerSelector cl) as [?|fwList] eqn:Hfw; [done|].
  injection Hget as <-.
  assert (Hall : forall t s name o,
            (<[FileWatchGVR := itemsByName fwList]>
               (<[ImageMapGVR := itemsByName imList]>
                  (<[KubernetesApplyGVR := itemsByName kaList]> ∅)) : objectSet Spec) !! t = Some s ->
            s !! name = Some o ->
            (GetGroupVersionResource o = t /\ GetName o = name) /\ owned o).
  { intros t s name o Hs Ho.
    rewrite lookup_insert in Hs. case_decide as H1.
    { injection Hs as <-. subst t. by eapply listed_keyed_owned. }
    rewrite lookup_insert in Hs. case_decide as H2.
    { injection Hs as <-. subst t. by eapply listed_keyed_owned. }
    rewrite lookup_insert in Hs. case_decide as H3.
    { injection Hs as <-. subst t. by eapply listed_keyed_owned. }
    by rewrite lookup_empty in Hs. }
  split.
  - intros t s Hs name o Ho. by destruct (Hall t s name o Hs Ho).
  - intros t name o Hl. unfold lookupObject in Hl.
    match type of Hl with ?m !! t ≫= _ = _ => destruct (m !! t) as [s|] eqn:Hs end;
      [|done].
    simpl in Hl. by destruct (Hall t s name o Hs Hl).
Qed.

(** Every object of a typed set is stored under its name, is of kind
    [t] and carries the owner label. *)
Definition ownedSetOf t (s : typedObjectSet Spec) : Prop :=
  forall name o, s !! name = Some o ->
    (GetGroupVersionResource o = t /\ GetName o = name) /\ owned o.

Lemma ownedSetOf_insert t (s : typedObjectSet Spec) name o :
  ownedSetOf t s -> GetGroupVersionResource o = t -> GetName o = name -> owned o ->
  ownedSetOf t (<[name := o]> s).
Proof.
  intros Hs Ht Hn Ho name' o' Hl. destruct (decide (name = name')) as [<-|Hne].
  - rewrite lookup_insert_eq in Hl. by injection Hl as <-.
  - rewrite lookup_insert_ne in Hl by done. by apply Hs.
Qed.

Lemma toKubernetesApplyObjects_owned (manifests : list (Manifest Spec)) :
  ownedSetOf KubernetesApplyGVR (toKubernetesApplyObjects manifests).
Proof.
  unfold toKubernetesApplyObjects.
  assert (Hempty : ownedSetOf KubernetesApplyGVR ∅)
    by (intros name o Hl; by rewrite lookup_empty in Hl).
  revert Hempty. generalize (∅ : typedObjectSet Spec).
  induction manifests as [|m manifests IH]; intros result Hresult; [done|].
  cbn [fold_left]. apply IH. destruct (KubernetesApplySpec m) as [spec|]; [|done].
  apply ownedSetOf_insert; [done..|]. apply lookup_singleton_eq.
Qed.

Lemma toImageMapObjects_owned (manifests : list (Manifest Spec)) :
  ownedSetOf ImageMapGVR (toImageMapObjects manifests).
Proof.
  unfold toImageMapObjects.
  assert (Hempty : ownedSetOf ImageMapGVR ∅)
    by (intros name o Hl; by rewrite lookup_empty in Hl).
  revert Hempty. generalize (∅ : typedObjectSet Spec).
  induction manifests as [|m manifests IH]; intros result Hresult; [done|].
  cbn [fold_left]. apply IH. clear IH. revert result Hresult.
  induction (ImageTargets m) as [|iTarget iTargets IH]; intros result Hresult; [done|].
  cbn [fold_left]. apply IH. apply ownedSetOf_insert; [done..|]. apply lookup_singleton_eq.
Qed.

(** X22: the desired set built by [toAPIObjects] is keyed (every object
    is stored under its own kind and name) and carries the owner label
    throughout, provided the file watches handed to it do. *)
Lemma toAPIObjects_keyed_owned (manifests : list (Manifest Spec))
    (fileWatches : typedObjectSet Spec) :
  ownedSetOf FileWatchGVR fileWatches ->
  keyed (toAPIObjects manifests fileWatches)
  /\ forall t name o,
       lookupObject (toAPIObjects manifests fileWatches) t name = Some o -> owned o.
Proof.
  intros Hfw.
  assert (Hall : forall t s, toAPIObjects manifests fileWatches !! t = Some s ->
                             ownedSetOf t s).
  { intros t s Hs. unfold toAPIObjects in Hs.
    rewrite lookup_insert in Hs. case_decide as H1; [injection Hs as <-; by subst t|].
    rewrite lookup_insert in Hs. case_decide as H2.
    { injection Hs as <-. subst t. apply toImageMapObjects_owned. }
    rewrite lookup_insert in Hs. case_decide as H3.
    { injection Hs as <-. subst t. apply toKubernetesApplyObjects_owned. }
    by rewrite lookup_empty in Hs. }
  split.
  - intros t s Hs name o Ho. by destruct (Hall t s Hs name o Ho).
  - intros t name o Hl. unfold lookupObject in Hl.
    destruct (toAPIObjects manifests fileWatches !! t) as [s|] eqn:Hs; [|done].
    simpl in Hl. by destruct (Hall t s Hs name o Hl).
Qed.

Lemma owned_SetResourceVersion rv o : owned o -> owned (SetResourceVersion rv o).
Proof. done. Qed.

(** C1: with the actual set listed through the owner selector and a
    desired set whose objects are stored under their own kind and name,
    the calls of one pass about a kind and name are: one create when it is
    only desired; one delete when it is only actual; one update, carrying
    the actual object's resource version, when both are present and
    [DeepEqual] on their specs fails; none when both are present with
    equal specs, or when neither is.  Conversely every call is of one of
    these forms, so deletes and updates only reach objects listed under
    the owner label, a create is only ever of a desired object, and no
    call is made on an object without the owner label once the desired
    objects carry it. *)
Theorem updateObjects_reconciles_owned cl0 cl newObjects actual :
  getExistingAPIObjects cl0 = inr actual ->
  keyed newObjects ->
  let calls := runCalls (updateObjectsRun cl newObjects actual) in
  (forall t name,
     filter (fun c => callKey c = (t, name)) calls
     = callsAbout newObjects actual t name)
  /\ (forall t name old, lookupObject actual t name = Some old -> owned old)
  /\ (forall c, c ∈ calls ->
      match c with
      | CallCreate obj =>
          lookupObject newObjects (callKey c).1 (callKey c).2 = Some obj
          /\ lookupObject actual (callKey c).1 (callKey c).2 = None
      | CallUpdate obj =>
          exists new old,
            lookupObject newObjects (callKey c).1 (callKey c).2 = Some new
            /\ lookupObject actual (callKey c).1 (callKey c).2 = Some old
            /\ owned old
            /\ DeepEqual (GetSpec old) (GetSpec new) = false
            /\ obj = SetResourceVersion (GetResourceVersion old) new
      | CallDelete obj =>
          lookupObject newObjects (callKey c).1 (callKey c).2 = None
          /\ lookupObject actual (callKey c).1 (callKey c).2 = Some obj
          /\ owned obj
      end)
  /\ ((forall t name obj, lookupObject newObjects t name = Some obj -> owned obj) ->
      forall c, c ∈ calls -> owned (callObject c)).
Proof.
  intros Hget Hnew calls.
  destruct (getExistingAPIObjects_keyed_owned _ _ Hget) as [Hold Howned].
  assert (Hcalls : forall t name,
            filter (fun c => callKey c = (t, name)) calls
            = callsAbout newObjects actual t name).
  { intros t name. unfold calls.
    rewrite updateObjectsRun_attemptAll, attemptAll_performAll. cbn [runCalls app].
    by apply plannedCalls_about. }
  assert (Hform : forall c, c ∈ calls ->
            match c with
            | CallCreate obj =>
                lookupObject newObjects (callKey c).1 (callKey c).2 = Some obj
                /\ lookupObject actual (callKey c).1 (callKey c).2 = None
            | CallUpdate obj =>
                exists new old,
                  lookupObject newObjects (callKey c).1 (callKey c).2 = Some new
                  /\ lookupObject actual (callKey c).1 (callKey c).2 = Some old
                  /\ owned old
                  /\ DeepEqual (GetSpec old) (GetSpec new) = false
                  /\ obj = SetResourceVersion (GetResourceVersion old) new
            | CallDelete obj =>
                lookupObject newObjects (callKey c).1 (callKey c).2 = None
                /\ lookupObject actual (callKey c).1 (callKey c).2 = Some obj
                /\ owned obj
            end).
  { intros c Hc.
    assert (Hin : c ∈ callsAbout newObjects actual (callKey c).1 (callKey c).2).
    { rewrite <-Hcalls. apply list_elem_of_filter. split; [|done]. by destruct (callKey c). }
    unfold callsAbout in Hin.
    destruct (lookupObject newObjects (callKey c).1 (callKey c).2) as [new|] eqn:Hn,
             (lookupObject actual (callKey c).1 (callKey c).2) as [old|] eqn:Ho.
    - destruct (DeepEqual (GetSpec old) (GetSpec new)) eqn:Heq;
        [by apply elem_of_nil in Hin|].
      apply list_elem_of_singleton in Hin. subst c. cbv beta iota.
      exists new, old. repeat split; eauto.
    - apply list_elem_of_singleton in Hin. subst c. cbv beta iota. done.
    - apply list_elem_of_singleton in Hin. subst c. cbv beta iota.
      repeat split; eauto.
    - by apply elem_of_nil in Hin. }
  split; [done|]. split; [done|]. split; [done|].
  intros Hdesired c Hc. specialize (Hform c Hc). destruct c as [obj|obj|obj]; simpl in *.
  - destruct Hform as [Hn _]. by eapply Hdesired.
  - destruct Hform as (new & old & Hn & _ & _ & _ & ->).
    apply owned_SetResourceVersion. by eapply Hdesired.
  - by destruct Hform as (_ & _ & ?).
Qed.

End ReconcilerProperties.

(** * The calls of a pass of [updateObjects] *)

Section ReconcilerCallProperties.
Import Configs.
Context {Spec : Type} `{!ApiCmp Spec} `{!Client Spec} `{!Scheme} `{!RangeOrder}.

Implicit Types (newObjects oldObjects objs : objectSet Spec).
Implicit Types (t : GroupVersionResource) (name : string) (o obj : object Spec).
Implicit Types (c : call Spec) (cl : client).

Lemma runCalls_planned cl newObjects oldObjects :
  runCalls (updateObjectsRun cl newObjects oldObjects) = plannedCalls newObjects oldObjects.
Proof. by rewrite updateObjectsRun_attemptAll, attemptAll_performAll. Qed.

Lemma range_lookupObject objs t (s : typedObjectSet Spec) name o :
  (t, s) ∈ range objs -> (name, o) ∈ range s -> lookupObject objs t name = Some o.
Proof.
  intros Hs%range_elem Ho%range_elem. unfold lookupObject. by rewrite Hs.
Qed.

Lemma lookupObject_range objs t name o :
  lookupObject objs t name = Some o ->
  exists s, (t, s) ∈ range objs /\ (name, o) ∈ range s.
Proof.
  unfold lookupObject. destruct (objs !! t) as [s|] eqn:Hs; [|done]. simpl.
  intros Ho. exists s. by rewrite !range_elem.
Qed.

(** An upsert of a pass: a create of a desired object that is not in
    the actual set, or an update of a desired object whose spec differs
    from the actual one, carrying the actual resource version. *)
Definition isUpsert newObjects oldObjects c : Prop :=
  exists t name obj,
    lookupObject newObjects t name = Some obj
    /\ match lookupObject oldObjects t name with
       | None => c = CallCreate obj
       | Some old =>
           DeepEqual (GetSpec old) (GetSpec obj) = false
           /\ c = CallUpdate (SetResourceVersion (GetResourceVersion old) obj)
       end.

(** A removal of a pass: a delete of an actual object that is not in
    the desired set. *)
Definition isRemoval newObjects oldObjects c : Prop :=
  exists t name old,
    lookupObject oldObjects t name = Some old
    /\ lookupObject newObjects t name = None
    /\ c = CallDelete old.

(** X8: [updateObjects] makes all its creates and updates before its
    first delete.  Every create is of a desired object missing from
    the actual set, every update is of a desired object whose spec
    differs from the actual one, and every delete is of an actual object
    missing from the desired set. *)
Theorem updateObjects_upserts_before_deletes cl newObjects oldObjects :
  exists upserts deletes,
    runCalls (updateObjectsRun cl newObjects oldObjects) = upserts ++ deletes
    /\ Forall (isUpsert newObjects oldObjects) upserts
    /\ Forall (isRemoval newObjects oldObjects) deletes.
Proof.
  rewrite runCalls_planned. unfold plannedCalls. eexists _, _. split; [reflexivity|].
  split; apply Forall_forall; intros c Hc.
  - apply list_elem_of_bind in Hc as ([t s] & Hc & Hs).
    apply list_elem_of_bind in Hc as ([name obj] & Hc & Ho). simpl in *.
    exists t, name, obj. split; [by eapply range_lookupObject|].
    unfold upsertCalls in Hc. simpl in Hc.
    destruct (lookupObject oldObjects t name) as [old|].
    + destruct (DeepEqual (GetSpec old) (GetSpec obj)); [by apply elem_of_nil in Hc|].
      by apply list_elem_of_singleton in Hc.
    + by apply list_elem_of_singleton in Hc.
  - apply list_elem_of_bind in Hc as ([t s] & Hc & Hs).
    apply list_elem_of_bind in Hc as ([name old] & Hc & Ho). simpl in *.
    exists t, name, old. split; [by eapply range_lookupObject|].
    unfold deleteCalls in Hc. simpl in Hc.
    destruct (lookupObject newObjects t name) as [obj|]; [by apply elem_of_nil in Hc|].
    by apply list_elem_of_singleton in Hc.
Qed.

(** The two sets agree: they hold the same kinds and names, with specs
    that [DeepEqual] accepts. *)
Definition inSync newObjects oldObjects : Prop :=
  forall t name,
    match lookupObject newObjects t name, lookupObject oldObjects t name with
    | Some obj, Some old => DeepEqual (GetSpec old) (GetSpec obj) = true
    | None, None => True
    | _, _ => False
    end.

Lemma bind_nil_iff {A B} (f : A -> list B) (l : list A) :
  l ≫= f = [] <-> forall x, x ∈ l -> f x = [].
Proof.
  induction l as [|a l IH].
  - split; [|done]. intros _ x Hx. by apply elem_of_nil in Hx.
  - rewrite bind_cons. split.
    + intros [Ha Hl]%app_nil x [->|Hx]%elem_of_cons; [done|]. by apply IH.
    + intros Hall. rewrite (Hall a) by by left. simpl. apply IH.
      intros x Hx. apply Hall. by right.
Qed.

(** X9: a pass of [updateObjects] calls the API server not at all
    exactly when the desired and the actual set agree; it then returns
    the client untouched and no error. *)
Theorem updateObjects_no_call_iff_in_sync cl newObjects oldObjects :
  (runCalls (updateObjectsRun cl newObjects oldObjects) = []
   <-> inSync newObjects oldObjects)
  /\ (inSync newObjects oldObjects ->
      updateObjects cl newObjects oldObjects = (cl, None)).
Proof.
  assert (Hiff : plannedCalls newObjects oldObjects = [] <-> inSync newObjects oldObjects).
  { unfold plannedCalls. split.
    - intros [Hup Hdel]%app_nil t name.
      destruct (lookupObject newObjects t name) as [obj|] eqn:Hnew;
        destruct (lookupObject oldObjects t name) as [old|] eqn:Hold; try done.
      + apply lookupObject_range in Hnew as (s & Hs & Ho).
        pose proof (proj1 (bind_nil_iff _ _) Hup _ Hs) as Hin. simpl in Hin.
        pose proof (proj1 (bind_nil_iff _ _) Hin _ Ho) as Hc.
        unfold upsertCalls in Hc. simpl in Hc. rewrite Hold in Hc.
        by destruct (DeepEqual (GetSpec old) (GetSpec obj)).
      + apply lookupObject_range in Hnew as (s & Hs & Ho).
        pose proof (proj1 (bind_nil_iff _ _) Hup _ Hs) as Hin. simpl in Hin.
        pose proof (proj1 (bind_nil_iff _ _) Hin _ Ho) as Hc.
        unfold upsertCalls in Hc. simpl in Hc. by rewrite Hold in Hc.
      + apply lookupObject_range in Hold as (s & Hs & Ho).
        pose proof (proj1 (bind_nil_iff _ _) Hdel _ Hs) as Hin. simpl in Hin.
        pose proof (proj1 (bind_nil_iff _ _) Hin _ Ho) as Hc.
        unfold deleteCalls in Hc. simpl in Hc. by rewrite Hnew in Hc.
    - intros Hsync. apply app_nil. split.
      + apply bind_nil_iff. intros [t s] Hs. apply bind_nil_iff. intros [name obj] Ho.
        simpl. pose proof (range_lookupObject _ _ _ _ _ Hs Ho) as Hnew.
        specialize (Hsync t name). rewrite Hnew in Hsync.
        unfold upsertCalls. simpl.
        destruct (lookupObject oldObjects t name) as [old|]; [|done]. by rewrite Hsync.
      + apply bind_nil_iff. intros [t s] Hs. apply bind_nil_iff. intros [name old] Ho.
        simpl. pose proof (range_lookupObject _ _ _ _ _ Hs Ho) as Hold.
        specialize (Hsync t name). rewrite Hold in Hsync.
        unfold deleteCalls. simpl.
        by destruct (lookupObject newObjects t name) as [obj|]. }
  split; [by rewrite runCalls_planned|].
  intros Hsync%Hiff. unfold updateObjects.
  rewrite updateObjectsRun_attemptAll, Hsync. done.
Qed.

End ReconcilerCallProperties.

(** * The desired set, the actual set and the retry loop *)

Section DesiredAndActualSets.
Import Configs.
Context {Spec : Type} `{!ApiCmp Spec} `{!Client Spec} `{!Scheme} `{!RangeOrder}.

Implicit Types (objs : objectSet Spec) (t : GroupVersionResource) (name : string).
Implicit Types (o : object Spec) (cl : client).

(** A loop of map stores keeps, for each key, the value stored last. *)
Lemma fold_insert_lookup {A V} (key : A -> string) (val : A -> V) (l : list A)
    (m0 : gmap string V) (k : string) :
  fold_left (fun m a => <[key a := val a]> m) l m0 !! k
  = match last (filter (fun a => key a = k) l) with
    | Some a => Some (val a)
    | None => m0 !! k
    end.
Proof.
  revert m0. induction l as [|a l IH]; intros m0; [done|].
  cbn [fold_left]. rewrite IH, filter_cons. case_decide as Hk.
  - rewrite last_cons. destruct (last (filter _ l)); [done|].
    by rewrite <-Hk, lookup_insert_eq.
  - destruct (last (filter _ l)); [done|]. by rewrite lookup_insert_ne.
Qed.

Lemma itemsByName_last (items : list (object Spec)) name :
  itemsByName items !! name = last (filter (fun o => GetName o = name) items).
Proof.
  unfold itemsByName.
  rewrite (fold_insert_lookup GetName (fun o => o) items ∅ name).
  by destruct (last _).
Qed.

(** The kinds the reconciler owns. *)
Definition ownedKinds : list GroupVersionResource :=
  [KubernetesApplyGVR; ImageMapGVR; FileWatchGVR].

(** X10: the set returned by [getExistingAPIObjects] holds the three
    owned kinds and no other; under each kind it holds the items listed
    for that kind through the owner selector, each under its name, and
    of listed items that share a name the last one. *)
Theorem getExistingAPIObjects_indexes_listings cl actual :
  NoDup ownedKinds ->
  getExistingAPIObjects cl = inr actual ->
  (forall t, t ∈ ownedKinds ->
     exists items,
       List t ownerSelector cl = inr items
       /\ forall name,
            lookupObject actual t name = last (filter (fun o => GetName o = name) items))
  /\ (forall t, ~ t ∈ ownedKinds -> actual !! t = None).
Proof.
  unfold ownedKinds. intros Hnd Hget.
  apply NoDup_cons in Hnd as [Hka Hnd]. apply NoDup_cons in Hnd as [Him _].
  rewrite !elem_of_cons, elem_of_nil in Hka. rewrite !elem_of_cons, elem_of_nil in Him.
  unfold getExistingAPIObjects in Hget.
  destruct (List KubernetesApplyGVR ownerSelector cl) as [?|kaList] eqn:Hkal; [done|].
  destruct (List ImageMapGVR ownerSelector cl) as [?|imList] eqn:Himl; [done|].
  destruct (List FileWatchGVR ownerSelector cl) as [?|fwList] eqn:Hfwl; [done|].
  injection Hget as <-. split.
  - intros t Ht. rewrite !elem_of_cons, elem_of_nil in Ht. unfold lookupObject.
    destruct Ht as [->|[->|[->|[]]]].
    + exists kaList. split; [done|]. intros name.
      rewrite lookup_insert_ne by (intuition congruence). rewrite lookup_insert_ne by (intuition congruence).
      rewrite lookup_insert_eq. simpl. apply itemsByName_last.
    + exists imList. split; [done|]. intros name.
      rewrite lookup_insert_ne by (intuition congruence). rewrite lookup_insert_eq. simpl.
      apply itemsByName_last.
    + exists fwList. split; [done|]. intros name.
      rewrite lookup_insert_eq. simpl. apply itemsByName_last.
  - intros t Ht. rewrite !elem_of_cons, elem_of_nil in Ht.
    rewrite !lookup_insert_ne by (intuition congruence). apply lookup_empty.
Qed.

(** The [KubernetesApply] object made for a manifest name and spec, and
    the [ImageMap] object made for an image target. *)
Definition kubernetesApplyObject name (spec : Spec) : object Spec :=
  mkObject KubernetesApplyGVR name
    {[ LabelOwnerKind := LabelOwnerKindTiltfile ]}
    {[ AnnotationManifest := name; AnnotationSpanID := "kubernetesapply:" +:+ name ]}
    "" spec.

Definition imageMapObject (iTarget : ImageTarget Spec) : object Spec :=
  mkObject ImageMapGVR (SanitizeName (ImageName iTarget))
    {[ LabelOwnerKind := LabelOwnerKindTiltfile ]} ∅ "" (ImageMapSpec iTarget).

(** X11: [toKubernetesApplyObjects] makes one object per name of a
    manifest that deploys to Kubernetes: it carries the owner label, the
    manifest and span annotations and the spec of the last such manifest
    of that name.  Manifests that do not deploy to Kubernetes give no
    object. *)
Theorem toKubernetesApplyObjects_lookup (manifests : list (Manifest Spec)) name :
  toKubernetesApplyObjects manifests !! name
  = kubernetesApplyObject name
    <$> last (omap (fun m => if decide (ManifestName m = name)
                             then KubernetesApplySpec m else None) manifests).
Proof.
  unfold toKubernetesApplyObjects.
  cut (forall result : typedObjectSet Spec,
         fold_left
           (fun result m =>
              match KubernetesApplySpec m with
              | None => result
              | Some spec =>
                  let name := ManifestName m in
                  let ka :=
                    mkObject KubernetesApplyGVR name
                      {[ LabelOwnerKind := LabelOwnerKindTiltfile ]}
                      {[ AnnotationManifest := name;
                         AnnotationSpanID := "kubernetesapply:" +:+ name ]}
                      "" spec in
                  <[name := ka]> result
              end) manifests result !! name
         = match last (omap (fun m => if decide (ManifestName m = name)
                                      then KubernetesApplySpec m else None) manifests) with
           | Some spec => Some (kubernetesApplyObject name spec)
           | None => result !! name
           end).
  { intros Hcut. rewrite Hcut. by destruct (last _). }
  induction manifests as [|m manifests IH]; intros result; [done|].
  cbn [fold_left]. rewrite IH. clear IH. simpl.
  destruct (decide (ManifestName m = name)) as [<-|Hne].
  - destruct (KubernetesApplySpec m) as [spec|]; [|done].
    rewrite last_cons. destruct (last _); [done|]. by rewrite lookup_insert_eq.
  - destruct (last _); [done|].
    destruct (KubernetesApplySpec m) as [spec|]; [|done]. by rewrite lookup_insert_ne.
Qed.

Lemma fold_left_bind {A B C} (g : C -> B -> C) (h : A -> list B) (l : list A) (c : C) :
  fold_left (fun c a => fold_left g (h a) c) l c = fold_left g (l ≫= h) c.
Proof.
  revert c. induction l as [|a l IH]; intros c; [done|].
  cbn [fold_left]. by rewrite bind_cons, fold_left_app, IH.
Qed.

(** X12: [toImageMapObjects] makes one object per sanitized image name,
    whichever and however many manifests use the image: it carries the
    owner label, no annotation, and the spec of the last image target of
    that name, in the order of the manifests and of their targets. *)
Theorem toImageMapObjects_lookup (manifests : list (Manifest Spec)) name :
  toImageMapObjects manifests !! name
  = imageMapObject
    <$> last (filter (fun iTarget => SanitizeName (ImageName iTarget) = name)
                (manifests ≫= ImageTargets)).
Proof.
  unfold toImageMapObjects.
  rewrite (fold_left_bind
             (fun result iTarget =>
                <[SanitizeName (ImageName iTarget) := imageMapObject iTarget]> result)
             ImageTargets manifests ∅).
  rewrite (fold_insert_lookup (fun iTarget => SanitizeName (ImageName iTarget))
             imageMapObject).
  by destruct (last _).
Qed.

End DesiredAndActualSets.

Section OwnedObjectsProperties.
Import Configs.
Context {Spec : Type} `{!ApiCmp Spec} `{!Client Spec} `{!Scheme} `{!RangeOrder}.
Context `{!Cache Spec}.

Implicit Types (cl : client) (manifests : list (Manifest Spec)).
Implicit Types (fileWatches : typedObjectSet Spec).

(** The listing at [cl] failed because the cache had not started. *)
Definition cacheNotStarted cl : Prop :=
  exists err, getExistingAPIObjects cl = inl err /\ IsErrCacheNotStarted err = true.

Lemma retryExisting_spec retriesLeft cl sleeps cl' sleeps' res :
  retryExisting retriesLeft cl sleeps = (cl', sleeps', res) ->
  exists k,
    (k <= retriesLeft)%nat
    /\ sleeps' = (sleeps + k)%nat
    /\ cl' = Nat.iter k Sleep cl
    /\ (forall j, (j < k)%nat -> cacheNotStarted (Nat.iter j Sleep cl))
    /\ getExistingAPIObjects cl' = res
    /\ match res with
       | inl err => IsErrCacheNotStarted err = false \/ k = retriesLeft
       | inr _ => True
       end.
Proof.
  revert cl sleeps. induction retriesLeft as [|n IH]; intros cl sleeps; simpl.
  - destruct (getExistingAPIObjects cl) as [err|existing] eqn:Hget.
    + intros [= <- <- <-]. exists 0%nat.
      split; [lia|]. split; [lia|]. split; [done|]. split; [intros j Hj; lia|].
      split; [done|]. by right.
    + intros [= <- <- <-]. exists 0%nat.
      split; [lia|]. split; [lia|]. split; [done|]. split; [intros j Hj; lia|]. done.
  - destruct (getExistingAPIObjects cl) as [err|existing] eqn:Hget.
    + destruct (IsErrCacheNotStarted err) eqn:Herr.
      * intros (k & Hk & -> & -> & Hbefore & Hres & Hlast)%IH.
        exists (S k). split; [lia|]. split; [lia|]. split; [by rewrite Nat.iter_succ_r|].
        split.
        { intros [|j] Hj; [by exists err|]. rewrite Nat.iter_succ_r. apply Hbefore. lia. }
        split; [done|].
        destruct res; [|done]. destruct Hlast as [?|Hlast]; [by left|right; by rewrite Hlast].
      * intros [= <- <- <-]. exists 0%nat.
        split; [lia|]. split; [lia|]. split; [done|]. split; [intros j Hj; lia|].
        split; [done|]. by left.
    + intros [= <- <- <-]. exists 0%nat.
      split; [lia|]. split; [lia|]. split; [done|]. split; [intros j Hj; lia|]. done.
Qed.

Lemma retryExisting_waits k retriesLeft cl sleeps :
  (k <= retriesLeft)%nat ->
  (forall j, (j < k)%nat -> cacheNotStarted (Nat.iter j Sleep cl)) ->
  retryExisting retriesLeft cl sleeps
  = retryExisting (retriesLeft - k) (Nat.iter k Sleep cl) (sleeps + k).
Proof.
  revert retriesLeft cl sleeps. induction k as [|k IH]; intros retriesLeft cl sleeps Hk Hfail.
  - simpl. by rewrite Nat.sub_0_r, Nat.add_0_r.
  - destruct retriesLeft as [|n]; [lia|].
    destruct (Hfail 0%nat) as (err & Hget & Herr); [lia|]. simpl in Hget.
    cbn [retryExisting]. rewrite Hget, Herr. rewrite IH.
    + rewrite Nat.iter_succ_r. f_equal. lia.
    + lia.
    + intros j Hj. rewrite <-Nat.iter_succ_r. apply Hfail. lia.
Qed.

(** X13: when [updateOwnedObjects] returns an error of the listing, it
    has slept at most five times and has made no create, update or
    delete: the client is as the sleeps left it.  Every listing before
    the last failed because the cache had not started; the error returned
    is that of the last listing, and it is a cache-not-started error only
    if all five retries were used. *)
Theorem updateOwnedObjects_listing_error cl manifests fileWatches cl' sleeps err :
  updateOwnedObjects cl manifests fileWatches = (cl', sleeps, inl err) ->
  (sleeps <= 5)%nat
  /\ cl' = Nat.iter sleeps Sleep cl
  /\ (forall j, (j < sleeps)%nat -> cacheNotStarted (Nat.iter j Sleep cl))
  /\ getExistingAPIObjects cl' = inl err
  /\ (IsErrCacheNotStarted err = true -> sleeps = 5%nat).
Proof.
  unfold updateOwnedObjects.
  destruct (retryExisting 5 cl 0) as [[cl1 sleeps1] res] eqn:Hretry.
  apply retryExisting_spec in Hretry as (k & Hk & -> & -> & Hbefore & Hres & Hlast).
  destruct res as [err1|existing].
  - intros [= <- <- <-]. simpl. repeat split; try done.
    intros Herr. destruct Hlast as [?|?]; congruence.
  - destruct (updateObjects _ _ existing). discriminate.
Qed.

(** X14: [updateOwnedObjects] waits for the cache: when the listing
    fails because the cache has not started, up to five times, and then
    succeeds, the pass sleeps once per failure and reconciles the desired
    objects of the Tiltfile against that first successful listing. *)
Theorem updateOwnedObjects_waits_for_cache cl manifests fileWatches k existing :
  (k <= 5)%nat ->
  (forall j, (j < k)%nat -> cacheNotStarted (Nat.iter j Sleep cl)) ->
  getExistingAPIObjects (Nat.iter k Sleep cl) = inr existing ->
  updateOwnedObjects cl manifests fileWatches
  = let '(cl', err) :=
      updateObjects (Nat.iter k Sleep cl) (toAPIObjects manifests fileWatches) existing in
    (cl', k, inr err).
Proof.
  intros Hk Hfail Hget. unfold updateOwnedObjects.
  rewrite (retryExisting_waits k) by done.
  destruct (5 - k)%nat; simpl; by rewrite Hget.
Qed.

End OwnedObjectsProperties.

(** ** A concrete client, for running the reconciler *)

Section ReconcilerExample.
Import Configs.

(** Specs are numbers compared by equality. *)
Definition natCmp : ApiCmp nat := Nat.eqb.

Definition tiltScheme : Scheme := {|
  LabelOwnerKind := "tilt.dev/owner-kind";
  LabelOwnerKindTiltfile := "Tiltfile";
  AnnotationManifest := "tilt.dev/resource";
  AnnotationSpanID := "tilt.dev/log-span-id";
  KubernetesApplyGVR := mkGVR "tilt.dev" "v1alpha1" "kubernetesapplys";
  ImageMapGVR := mkGVR "tilt.dev" "v1alpha1" "imagemaps";
  FileWatchGVR := mkGVR "tilt.dev" "v1alpha1" "filewatches";
  SanitizeName name := name
|}.

(** A store that holds a list of objects: creating adds the object,
    updating always fails, deleting removes the objects of that name. *)
Definition storeList (t : GroupVersionResource) (selector : gmap string string)
    (cl : list (object nat)) : string + list (object nat) :=
  inr (filter (fun o => GetGroupVersionResource o = t /\ Matches selector (GetLabels o)) cl).

Lemma storeList_sound t selector cl items :
  storeList t selector cl = inr items ->
  Forall (fun o => GetGroupVersionResource o = t /\ Matches selector (GetLabels o)) items.
Proof.
  intros [= <-]. apply Forall_forall. intros o Ho.
  by apply list_elem_of_filter in Ho as [? _].
Qed.

Definition storeClient : Client nat := {|
  client := list (object nat);
  Create o cl := (o :: cl, None);
  Update o cl := (cl, Some "conflict");
  Delete o cl := (filter (fun x => GetName x <> GetName o) cl, None);
  List := storeList;
  List_sound := storeList_sound
|}.

Definition mapOrder : RangeOrder := {|
  range K _ _ V m := map_to_list m;
  range_Permutation K _ _ V m := reflexivity (map_to_list m)
|}.

Definition ownerLabels : gmap string string := {[ "tilt.dev/owner-kind" := "Tiltfile" ]}.

Definition kaObject (name : string) (labels : gmap string string) (rv : string) (spec : nat)
    : object nat :=
  mkObject (mkGVR "tilt.dev" "v1alpha1" "kubernetesapplys") name labels ∅ rv spec.

(** The store holds an owned [a] and [c] and a foreign [z]; the Tiltfile
    wants [a] with a new spec, and [b]. *)
Definition exampleStore : list (object nat) :=
  [kaObject "a" ownerLabels "7" 1; kaObject "c" ownerLabels "8" 5; kaObject "z" ∅ "9" 4].

Definition exampleDesired : objectSet nat :=
  {[ mkGVR "tilt.dev" "v1alpha1" "kubernetesapplys" :=
       {[ "a" := kaObject "a" ownerLabels "" 2; "b" := kaObject "b" ownerLabels "" 3 ]} ]}.

Lemma exampleDesired_keyed : keyed exampleDesired.
Proof. unfold keyed. refine (bool_decide_unpack _ _). vm_compute. exact I. Defined.

Lemma updateObjects_reconciles_owned_witness :
  exists actual,
    @getExistingAPIObjects nat storeClient tiltScheme exampleStore = inr actual
    /\ forall t name,
         filter (fun c => callKey c = (t, name))
           (runCalls (@updateObjectsRun nat natCmp storeClient mapOrder
                        exampleStore exampleDesired actual))
         = @callsAbout nat natCmp exampleDesired actual t name.
Proof.
  eexists. split; [reflexivity|].
  apply (@updateObjects_reconciles_owned nat natCmp storeClient tiltScheme mapOrder
           exampleStore exampleStore exampleDesired _ eq_refl exampleDesired_keyed).
Defined.

(** The pass fails to update [a] (with the stored resource version 7),
    creates [b], deletes [c] and leaves the foreign [z] alone; the failed
    update is reported after all three calls were made. *)
Example updateObjects_example :
  match @getExistingAPIObjects nat storeClient tiltScheme exampleStore with
  | inl _ => False
  | inr actual =>
      let st := @updateObjectsRun nat natCmp storeClient mapOrder
                  exampleStore exampleDesired actual in
      runCalls st
      = [CallUpdate (kaObject "a" ownerLabels "7" 2);
         CallCreate (kaObject "b" ownerLabels "" 3);
         CallDelete (kaObject "c" ownerLabels "8" 5)]
      /\ runErrs st = ["update kubernetesapplys/a: conflict"]
      /\ runClient st
         = [kaObject "b" ownerLabels "" 3; kaObject "a" ownerLabels "7" 1;
            kaObject "z" ∅ "9" 4]
  end.
Proof. vm_compute. repeat split. Qed.

End ReconcilerExample.

(** ** A cache that starts late *)

Section OwnedObjectsExample.
Import Configs.

(** A client in front of a cache that starts after a number of sleeps:
    until then every listing fails. *)
Definition coldList (t : GroupVersionResource) (selector : gmap string string)
    (cl : nat * list (object nat)) : string + list (object nat) :=
  match cl.1 with
  | O => storeList t selector cl.2
  | S _ => inl "cache not started"
  end.

Lemma coldList_sound t selector cl items :
  coldList t selector cl = inr items ->
  Forall (fun o => GetGroupVersionResource o = t /\ Matches selector (GetLabels o)) items.
Proof.
  unfold coldList. destruct cl.1; [apply storeList_sound|discriminate].
Qed.

Definition coldClient : Client nat := {|
  client := nat * list (object nat);
  Create o cl := (cl.1, o :: cl.2, None);
  Update o cl := (cl, Some "conflict");
  Delete o cl := (cl.1, filter (fun x => GetName x <> GetName o) cl.2, None);
  List := coldList;
  List_sound := coldList_sound
|}.

Definition coldSleep (cl : nat * list (object nat)) : nat * list (object nat) :=
  (pred cl.1, cl.2).

Definition coldCache : @Cache nat coldClient :=
  Build_Cache nat coldClient
    (fun err => bool_decide (err = "cache not started")) coldSleep.

(** One manifest that deploys to Kubernetes and builds one image. *)
Definition exampleManifests : list (Manifest nat) :=
  [mkManifest "b" (Some 3) [mkImageTarget "img" 4]].

Lemma getExistingAPIObjects_indexes_listings_witness :
  exists actual,
    @getExistingAPIObjects nat storeClient tiltScheme exampleStore = inr actual
    /\ (forall t, t ∈ @ownedKinds tiltScheme ->
          exists items,
            @List nat storeClient t (@ownerSelector tiltScheme) exampleStore = inr items
            /\ forall name,
                 lookupObject actual t name
                 = last (filter (fun o => GetName o = name) items))
    /\ (forall t, ~ t ∈ @ownedKinds tiltScheme -> actual !! t = None).
Proof.
  eexists. split; [reflexivity|].
  apply (@getExistingAPIObjects_indexes_listings nat storeClient tiltScheme exampleStore).
  - refine (bool_decide_unpack _ _). vm_compute. exact I.
  - reflexivity.
Defined.

Lemma toAPIObjects_keyed_owned_witness :
  let fileWatches : typedObjectSet nat :=
    {[ "fw" := mkObject (mkGVR "tilt.dev" "v1alpha1" "filewatches") "fw" ownerLabels ∅ "" 1 ]} in
  keyed (@toAPIObjects nat tiltScheme exampleManifests fileWatches)
  /\ forall t name o,
       lookupObject (@toAPIObjects nat tiltScheme exampleManifests fileWatches) t name = Some o ->
       @owned nat tiltScheme o.
Proof.
  intros fileWatches.
  apply (@toAPIObjects_keyed_owned nat tiltScheme exampleManifests fileWatches).
  intros name o Ho. unfold fileWatches in Ho.
  apply lookup_singleton_Some in Ho as [<- <-]. vm_compute. done.
Defined.

Lemma updateOwnedObjects_listing_error_witness :
  let cl : @client nat coldClient := (7%nat, exampleStore) in
  let cl' : @client nat coldClient := (2%nat, exampleStore) in
  (5 <= 5)%nat
  /\ cl' = Nat.iter 5 (@Sleep nat coldClient coldCache) cl
  /\ (forall j, (j < 5)%nat ->
        @cacheNotStarted nat coldClient tiltScheme coldCache
          (Nat.iter j (@Sleep nat coldClient coldCache) cl))
  /\ @getExistingAPIObjects nat coldClient tiltScheme cl' = inl "cache not started"
  /\ (@IsErrCacheNotStarted nat coldClient coldCache "cache not started" = true -> 5 = 5)%nat.
Proof.
  intros cl cl'.
  apply (@updateOwnedObjects_listing_error nat natCmp coldClient tiltScheme mapOrder
           coldCache cl exampleManifests ∅ cl' 5%nat "cache not started").
  vm_compute. reflexivity.
Defined.

Lemma updateOwnedObjects_waits_for_cache_witness :
  let cl : @client nat coldClient := (2%nat, exampleStore) in
  exists existing,
    @getExistingAPIObjects nat coldClient tiltScheme (0%nat, exampleStore) = inr existing
    /\ @updateOwnedObjects nat natCmp coldClient tiltScheme mapOrder coldCache
         cl exampleManifests ∅
       = let '(cl', err) :=
           @updateObjects nat natCmp coldClient mapOrder (0%nat, exampleStore)
             (@toAPIObjects nat tiltScheme exampleManifests ∅) existing in
         (cl', 2%nat, inr err).
Proof.
  intros cl. eexists. split; [reflexivity|].
  apply (@updateOwnedObjects_waits_for_cache nat natCmp coldClient tiltScheme mapOrder
           coldCache cl exampleManifests ∅ 2%nat).
  - lia.
  - intros j Hj. exists "cache not started".
    destruct j as [|[|j]]; [split; reflexivity|split; reflexivity|lia].
  - reflexivity.
Defined.

(** A cold start: two listings fail, the third succeeds, and the pass
    then creates the two objects of the manifest and deletes the two
    owned objects of the store that the Tiltfile no longer wants; the
    foreign object stays. *)
Example updateOwnedObjects_example :
  @updateOwnedObjects nat natCmp coldClient tiltScheme mapOrder coldCache
    (2%nat, exampleStore) exampleManifests ∅
  = ((0%nat,
      [mkObject (mkGVR "tilt.dev" "v1alpha1" "imagemaps") "img" ownerLabels ∅ "" 4;
       mkObject (mkGVR "tilt.dev" "v1alpha1" "kubernetesapplys") "b" ownerLabels
         {[ "tilt.dev/resource" := "b"; "tilt.dev/log-span-id" := "kubernetesapply:b" ]}
         "" 3;
       kaObject "z" ∅ "9" 4]),
     2%nat, inr None).
Proof. vm_compute. reflexivity. Qed.

End OwnedObjectsExample.

(** * Properties of the trigger queue subscriber *)

Section TriggerQueueProperties.
Import Configs.

(** ** The keys of the published document *)

Lemma list_ascii_of_string_app (s1 s2 : string) :
  String.list_ascii_of_string (s1 +:+ s2)
  = String.list_ascii_of_string s1 ++ String.list_ascii_of_string s2.
Proof.
  induction s1 as [|a s1 IH]; [done|].
  change (a :: String.list_ascii_of_string (s1 +:+ s2)
          = a :: (String.list_ascii_of_string s1 ++ String.list_ascii_of_string s2)).
  by rewrite IH.
Qed.

Lemma list_ascii_of_string_inj (s1 s2 : string) :
  String.list_ascii_of_string s1 = String.list_ascii_of_string s2 -> s1 = s2.
Proof.
  intros Heq. rewrite <-(String.string_of_list_ascii_of_string s1),
    <-(String.string_of_list_ascii_of_string s2). by rewrite Heq.
Qed.

(** Two strings with suffixes of the same length are equal only when the
    prefixes and the suffixes are. *)
Lemma append_inj_suffix (s1 s2 t1 t2 : string) :
  String.length t1 = String.length t2 ->
  s1 +:+ t1 = s2 +:+ t2 -> s1 = s2 /\ t1 = t2.
Proof.
  intros Hlen Heq. apply (f_equal String.list_ascii_of_string) in Heq.
  rewrite !list_ascii_of_string_app in Heq.
  apply app_inj_2 in Heq as [H1 H2].
  - split; by apply list_ascii_of_string_inj.
  - clear Heq. revert t2 Hlen. induction t1 as [|a t1 IH]; intros [|b t2]; simpl; try done.
    intros [= Hlen]. f_equal. by apply IH.
Qed.

Lemma append_assoc (s1 s2 s3 : string) : (s1 +:+ s2) +:+ s3 = s1 +:+ (s2 +:+ s3).
Proof.
  induction s1 as [|a s1 IH]; [done|].
  change (String a ((s1 +:+ s2) +:+ s3) = String a (s1 +:+ (s2 +:+ s3))).
  by rewrite IH.
Qed.

Lemma name_key_inj (i j : nat) : pretty i +:+ "-name" = pretty j +:+ "-name" -> i = j.
Proof.
  intros Heq. apply append_inj_suffix in Heq as [Heq _]; [|done].
  by apply (inj pretty).
Qed.

Lemma reason_key_inj (i j : nat) :
  pretty i +:+ "-reason-code" = pretty j +:+ "-reason-code" -> i = j.
Proof.
  intros Heq. apply append_inj_suffix in Heq as [Heq _]; [|done].
  by apply (inj pretty).
Qed.

Lemma name_key_ne_reason_key (i j : nat) :
  pretty i +:+ "-name" <> pretty j +:+ "-reason-code".
Proof.
  intros Heq. change "-reason-code" with ("-reason" +:+ "-code") in Heq.
  rewrite <-append_assoc in Heq.
  apply append_inj_suffix in Heq as [_ Heq]; [|done]. discriminate.
Qed.

(** ** [fromState] *)

(** The reason code published for a manifest name, when its state exists. *)
Definition reasonCode (state : EngineState) (mn : string) : option string :=
  (fun ms => pretty (TriggerReason ms)) <$> (ManifestStates state !! mn).

(** What the loop of [fromState] has written after the queue prefix [l]. *)
Definition published (state : EngineState) (l : list string)
    (data : gmap string string) : Prop :=
  (forall i mn, l !! i = Some mn ->
     data !! (pretty i +:+ "-name") = Some mn
     /\ data !! (pretty i +:+ "-reason-code") = reasonCode state mn)
  /\ (forall k v, data !! k = Some v ->
        exists i mn, l !! i = Some mn
          /\ ((k = pretty i +:+ "-name" /\ v = mn)
              \/ (k = pretty i +:+ "-reason-code" /\ reasonCode state mn = Some v))).

Lemma fromStateStep_published state l mn data :
  published state l data ->
  published state (l ++ [mn]) (fromStateStep state data (length l, mn)).
Proof.
  intros [Hfields Honly].
  assert (Hfresh : forall k, (k = pretty (length l) +:+ "-name"
                              \/ k = pretty (length l) +:+ "-reason-code") ->
                             data !! k = None).
  { intros k Hk. destruct (data !! k) as [v|] eqn:Hv; [|done]. exfalso.
    destruct (Honly k v Hv) as (i & mn' & Hi & Hki).
    apply lookup_lt_Some in Hi.
    destruct Hk as [->| ->], Hki as [[Hki _]|[Hki _]].
    - apply name_key_inj in Hki. lia.
    - by apply name_key_ne_reason_key in Hki.
    - symmetry in Hki. by apply name_key_ne_reason_key in Hki.
    - apply reason_key_inj in Hki. lia. }
  assert (Hnew : fromStateStep state data (length l, mn) !! (pretty (length l) +:+ "-name")
                 = Some mn
                 /\ fromStateStep state data (length l, mn)
                      !! (pretty (length l) +:+ "-reason-code") = reasonCode state mn).
  { unfold fromStateStep, reasonCode. destruct (ManifestStates state !! mn) as [ms|]; simpl.
    - rewrite lookup_insert_ne by (intros H; symmetry in H; by apply name_key_ne_reason_key in H).
      by rewrite !lookup_insert_eq.
    - rewrite lookup_insert_eq. split; [done|].
      rewrite lookup_insert_ne by apply name_key_ne_reason_key. apply Hfresh. by right. }
  assert (Hold : forall k, k <> pretty (length l) +:+ "-name" ->
                           k <> pretty (length l) +:+ "-reason-code" ->
                           fromStateStep state data (length l, mn) !! k = data !! k).
  { intros k H1 H2. unfold fromStateStep.
    destruct (ManifestStates state !! mn); by rewrite !lookup_insert_ne. }
  split.
  - intros i mn' Hi. destruct (decide (i = length l)) as [->|Hne].
    + rewrite list_lookup_middle in Hi by done. by injection Hi as <-.
    + assert (Hi' : l !! i = Some mn').
      { rewrite lookup_app_l in Hi; [done|].
        apply lookup_lt_Some in Hi. rewrite length_app in Hi. simpl in Hi. lia. }
      rewrite !Hold; [by apply Hfields|..]; intros H;
        first [ by apply name_key_inj in H
              | by apply reason_key_inj in H
              | by apply name_key_ne_reason_key in H
              | symmetry in H; by apply name_key_ne_reason_key in H ].
  - intros k v Hk.
    destruct (decide (k = pretty (length l) +:+ "-name")) as [->|H1].
    { exists (length l), mn. split; [by apply list_lookup_middle|].
      left. split; [done|]. destruct Hnew as [Hn _]. congruence. }
    destruct (decide (k = pretty (length l) +:+ "-reason-code")) as [->|H2].
    { exists (length l), mn. split; [by apply list_lookup_middle|].
      right. split; [done|]. destruct Hnew as [_ Hn]. congruence. }
    rewrite Hold in Hk by done. destruct (Honly k v Hk) as (i & mn' & Hi & Hki).
    exists i, mn'. split; [|done]. by apply lookup_app_l_Some.
Qed.

Lemma fromState_loop_published state l :
  published state l (fold_left (fromStateStep state) (imap pair l) ∅).
Proof.
  induction l as [|mn l IH] using rev_ind.
  - split; [done|]. intros k v Hk.
    change ((∅ : gmap string string) !! k = Some v) in Hk.
    by rewrite lookup_empty in Hk.
  - rewrite imap_app, fold_left_app. simpl. rewrite Nat.add_0_r.
    by apply fromStateStep_published.
Qed.

(** C3 (as amended): the published document carries the fixed name and,
    for each position [i] of the queue (from 0, without gaps), the field
    [i-name] with the manifest name and, when the manifest's state exists,
    the field [i-reason-code] with the reason code in decimal (no such
    field otherwise); it has no other field. *)
Theorem fromState_published_fields (TriggerQueueName : string) (state : EngineState) :
  let cm := fromState TriggerQueueName state in
  ConfigMapName cm = TriggerQueueName
  /\ (forall i mn, TriggerQueue state !! i = Some mn ->
        Data cm !! (pretty i +:+ "-name") = Some mn
        /\ Data cm !! (pretty i +:+ "-reason-code")
           = (fun ms => pretty (TriggerReason ms)) <$> (ManifestStates state !! mn))
  /\ (forall k v, Data cm !! k = Some v ->
        exists i mn, TriggerQueue state !! i = Some mn
          /\ ((k = pretty i +:+ "-name" /\ v = mn)
              \/ (k = pretty i +:+ "-reason-code" /\ reasonCode state mn = Some v))).
Proof.
  intros cm. split; [done|].
  exact (fromState_loop_published state (TriggerQueue state)).
Qed.

(** C3 (as stated) fails: no field is called [i-reasonCode]. *)
Lemma fromState_no_reasonCode_field :
  let state :=
    mkEngineState ["a"] {[ "a" := mkManifestState 2 ]} ∅ in
  ~ (forall i mn ms,
       TriggerQueue state !! i = Some mn ->
       ManifestStates state !! mn = Some ms ->
       Data (fromState "tilt-trigger-queue" state) !! (pretty i +:+ "-reasonCode")
       = Some (pretty (TriggerReason ms))).
Proof.
  intros state H. specialize (H 0%nat "a" (mkManifestState 2) eq_refl eq_refl).
  vm_compute in H. discriminate.
Qed.

(** A queue of two manifests, with reason codes 512 and 1024. *)
Example fromState_example :
  Data (fromState "tilt-trigger-queue"
          (mkEngineState ["a"; "b"]
             {[ "a" := mkManifestState 512; "b" := mkManifestState 1024 ]} ∅))
  = {[ "0-name" := "a"; "0-reason-code" := "512";
       "1-name" := "b"; "1-reason-code" := "1024" ]}.
Proof. refine (bool_decide_unpack _ _). vm_compute. exact I. Qed.

(** ** [removeDisabledManifests] *)

Section Eviction.
Context (TriggerQueueName : string) (Quote : string -> string) `{!ConfigMapClient}.

(** The owning resource of a queued manifest is marked disabled. *)
Definition isDisabled (state : EngineState) (mn : string) : bool :=
  match UIResources state !! mn with
  | Some uir => (0 <? DisabledCount uir)%Z
  | None => false
  end.

(** The two actions dispatched for an evicted entry. *)
Definition eviction (mn : string) : list Action :=
  [LogAction mn ("unqueue:" +:+ mn) InfoLvl
     ("Will not build resource " +:+ Quote mn +:+ ": it is disabled");
   RemoveFromTriggerQueueAction mn].

(** An informational log action attributed to [mn]. *)
Definition isInfoLogFor (mn : string) (a : Action) : bool :=
  match a with
  | LogAction mn' _ InfoLvl _ => bool_decide (mn' = mn)
  | _ => false
  end.

Lemma removeDisabledStep_fold state (l : list string) (dispatched : list Action) :
  fold_left (removeDisabledStep Quote state) l dispatched
  = dispatched ++ (l ≫= fun mn => if isDisabled state mn then eviction mn else []).
Proof.
  revert dispatched. induction l as [|mn l IH]; intros dispatched.
  - by rewrite app_nil_r.
  - cbn [fold_left]. rewrite IH, bind_cons. unfold removeDisabledStep, isDisabled, eviction.
    destruct (UIResources state !! mn) as [uir|]; [|done].
    destruct (0 <? DisabledCount uir)%Z; [|done]. by rewrite <-app_assoc.
Qed.

Lemma eviction_counts state (l : list string) (mn : string) :
  let dispatched := l ≫= fun mn => if isDisabled state mn then eviction mn else [] in
  length (filter (fun a => a = RemoveFromTriggerQueueAction mn) dispatched)
  = (if isDisabled state mn then length (filter (fun x => x = mn) l) else 0%nat)
  /\ length (filter (fun a => isInfoLogFor mn a = true) dispatched)
     = (if isDisabled state mn then length (filter (fun x => x = mn) l) else 0%nat).
Proof.
  cbv zeta. induction l as [|x l [IH1 IH2]].
  - by destruct (isDisabled state mn).
  - rewrite bind_cons, !filter_app, !length_app, IH1, IH2. clear IH1 IH2.
    rewrite (filter_cons (fun y => y = mn)).
    destruct (decide (x = mn)) as [->|Hne].
    + destruct (isDisabled state mn); [|done]. unfold eviction.
      rewrite !filter_cons. repeat case_decide; simpl in *; try done.
      all: by rewrite bool_decide_eq_true_2 in * by done.
    + assert (Hx : forall rest,
                length (filter (fun a => a = RemoveFromTriggerQueueAction mn)
                          (if isDisabled state x then eviction x else [])) + rest = rest
                /\ length (filter (fun a => isInfoLogFor mn a = true)
                             (if isDisabled state x then eviction x else [])) + rest = rest).
      { intros rest. destruct (isDisabled state x); [|done]. unfold eviction.
        rewrite !filter_cons. repeat case_decide; simpl in *; try done; try congruence.
        all: by rewrite bool_decide_eq_false_2 in * by done. }
      split; apply Hx.
Qed.

Lemma filter_eq_NoDup (l : list string) (mn : string) :
  NoDup l -> mn ∈ l -> length (filter (fun x => x = mn) l) = 1%nat.
Proof.
  induction l as [|x l IH]; intros Hnd Hin; [by apply elem_of_nil in Hin|].
  apply NoDup_cons in Hnd as [Hx Hnd]. rewrite filter_cons.
  destruct (decide (x = mn)) as [->|Hne].
  - simpl. f_equal. apply length_zero_iff_nil, filter_none. intros y Hy ->. done.
  - apply IH; [done|]. apply elem_of_cons in Hin as [->|?]; done.
Qed.

(** C9: the actions a pass dispatches are those of
    [removeDisabledManifests]: for each queued entry whose resource is
    disabled, in queue order, one informational log action attributed to
    the entry followed by one removal action, and nothing for the other
    entries.  So the removal actions (and the log actions) for a name are
    as many as its disabled entries in the queue: exactly one for an
    entry of a queue without repetitions, none for a name whose resource
    is not disabled. *)
Theorem OnChange_evicts_disabled_entries
    (s : TriggerQueueSubscriber) (cl : configMaps) (state : EngineState) :
  let dispatched := passDispatched (OnChange TriggerQueueName Quote s cl state false) in
  dispatched = removeDisabledManifests Quote state
  /\ dispatched
     = (TriggerQueue state ≫= fun mn => if isDisabled state mn then eviction mn else [])
  /\ (forall mn,
        length (filter (fun a => a = RemoveFromTriggerQueueAction mn) dispatched)
        = (if isDisabled state mn
           then length (filter (fun x => x = mn) (TriggerQueue state)) else 0%nat)
        /\ length (filter (fun a => isInfoLogFor mn a = true) dispatched)
           = (if isDisabled state mn
              then length (filter (fun x => x = mn) (TriggerQueue state)) else 0%nat))
  /\ (NoDup (TriggerQueue state) ->
      forall mn, mn ∈ TriggerQueue state -> isDisabled state mn = true ->
        length (filter (fun a => a = RemoveFromTriggerQueueAction mn) dispatched) = 1%nat
        /\ length (filter (fun a => isInfoLogFor mn a = true) dispatched) = 1%nat).
Proof.
  intros dispatched.
  assert (H1 : dispatched = removeDisabledManifests Quote state).
  { unfold dispatched, OnChange. simpl.
    destruct (match lastUpdate s with Some _ => _ | None => _ end); [done|].
    destruct (CreateOrUpdate _ cl) as [cl' [e|]]; done. }
  assert (H2 : dispatched
               = (TriggerQueue state ≫= fun mn => if isDisabled state mn then eviction mn else [])).
  { rewrite H1. unfold removeDisabledManifests. by rewrite removeDisabledStep_fold. }
  split; [done|]. split; [done|]. rewrite H2. split.
  - intros mn. apply eviction_counts.
  - intros Hnd mn Hin Hdis.
    destruct (eviction_counts state (TriggerQueue state) mn) as [-> ->].
    rewrite Hdis. split; by apply filter_eq_NoDup.
Qed.

End Eviction.

(** ** [OnChange] *)

Section Publishing.
Context (TriggerQueueName : string) (Quote : string -> string) `{!ConfigMapClient}.

Lemma OnChange_suppressed s cl state last :
  lastUpdate s = Some last ->
  Data (fromState TriggerQueueName state) = Data last ->
  OnChange TriggerQueueName Quote s cl state false
  = mkPass s cl (removeDisabledManifests Quote state) [] None.
Proof.
  intros Hlast Hdata. unfold OnChange, DeepEqualData. rewrite Hlast.
  by rewrite bool_decide_eq_true_2.
Qed.

(** After a pass without error the subscriber remembers the data of the
    state it has just seen. *)
Lemma OnChange_remembers s cl state :
  let p := OnChange TriggerQueueName Quote s cl state false in
  passErr p = None ->
  exists last, lastUpdate (passSubscriber p) = Some last
               /\ Data last = Data (fromState TriggerQueueName state).
Proof.
  unfold OnChange, DeepEqualData. cbv zeta.
  destruct (lastUpdate s) as [last|] eqn:Hlast.
  - case_bool_decide as Hd.
    + intros _. exists last. split; [exact Hlast|symmetry; exact Hd].
    + destruct (CreateOrUpdate _ cl) as [cl' [e|]]; [done|]. intros _. by eexists.
  - destruct (CreateOrUpdate _ cl) as [cl' [e|]]; [done|]. intros _. by eexists.
Qed.

(** C6: when the data computed from the state is the data the subscriber
    last published, the pass calls the client not at all and leaves
    client and subscriber as they were; so when two consecutive passes
    see the same queue data and the first one returns no error, the
    second one writes nothing, and starting from a subscriber that has
    not published yet the two passes make exactly one upsert. *)
Theorem OnChange_publishes_once
    (s : TriggerQueueSubscriber) (cl : configMaps) (state1 state2 : EngineState) :
  Data (fromState TriggerQueueName state1) = Data (fromState TriggerQueueName state2) ->
  let p1 := OnChange TriggerQueueName Quote s cl state1 false in
  let p2 := OnChange TriggerQueueName Quote (passSubscriber p1) (passClient p1) state2 false in
  (forall last, lastUpdate s = Some last ->
     Data (fromState TriggerQueueName state1) = Data last ->
     passWrites p1 = [] /\ passClient p1 = cl /\ passSubscriber p1 = s /\ passErr p1 = None)
  /\ (passErr p1 = None ->
      passWrites p2 = [] /\ passClient p2 = passClient p1 /\ passErr p2 = None)
  /\ (lastUpdate s = None -> passErr p1 = None ->
      passWrites p1 ++ passWrites p2 = [fromState TriggerQueueName state1]).
Proof.
  intros Hsame p1 p2. split; [|split].
  - intros last Hlast Hdata. unfold p1. by rewrite (OnChange_suppressed _ _ _ last).
  - intros Herr. destruct (OnChange_remembers s cl state1 Herr) as (last & Hlast & Hdata).
    unfold p2. rewrite (OnChange_suppressed _ _ _ last); [done|done|]. fold p1.
    congruence.
  - intros Hnone Herr.
    destruct (OnChange_remembers s cl state1 Herr) as (last & Hlast & Hdata).
    unfold p2. rewrite (OnChange_suppressed _ _ _ last); [|done|fold p1; congruence].
    cbn [passWrites]. rewrite app_nil_r. clear p2 Hlast Hdata.
    unfold p1, OnChange in *. rewrite Hnone in *.
    destruct (CreateOrUpdate _ cl) as [cl' [e|]]; [done|]. done.
Qed.

End Publishing.

(** ** A concrete client, for running the subscriber *)

(** A client that keeps every object it was asked to upsert. *)
Definition logClient : ConfigMapClient := {|
  configMaps := list ConfigMap;
  CreateOrUpdate obj cl := (obj :: cl, None)
|}.

Definition plainQuote (s : string) : string := "'" +:+ s +:+ "'".

(** The state of [TestTriggerQueueRemovesDisabledResources]: [a], [b] and
    [c] are queued and the resource of [b] is disabled. *)
Definition testState : EngineState :=
  mkEngineState ["a"; "b"; "c"]
    {[ "a" := mkManifestState 512; "b" := mkManifestState 1024;
       "c" := mkManifestState 1024 ]}
    {[ "b" := mkUIResource 1 ]}.

Lemma OnChange_publishes_once_witness :
  let p1 := @OnChange "tilt-trigger-queue" plainQuote logClient
              NewTriggerQueueSubscriber [] testState false in
  let p2 := @OnChange "tilt-trigger-queue" plainQuote logClient
              (passSubscriber p1) (passClient p1) testState false in
  passWrites p2 = [] /\ passClient p2 = passClient p1 /\ passErr p2 = None.
Proof.
  apply (@OnChange_publishes_once "tilt-trigger-queue" plainQuote logClient
           NewTriggerQueueSubscriber [] testState testState eq_refl).
  vm_compute. reflexivity.
Defined.

Lemma OnChange_evicts_disabled_entries_witness :
  let dispatched :=
    passDispatched (@OnChange "tilt-trigger-queue" plainQuote logClient
                      NewTriggerQueueSubscriber [] testState false) in
  length (filter (fun a => a = RemoveFromTriggerQueueAction "b") dispatched) = 1%nat
  /\ length (filter (fun a => isInfoLogFor "b" a = true) dispatched) = 1%nat.
Proof.
  apply (@OnChange_evicts_disabled_entries "tilt-trigger-queue" plainQuote logClient
           NewTriggerQueueSubscriber [] testState).
  - refine (bool_decide_unpack _ _). vm_compute. exact I.
  - refine (bool_decide_unpack _ _). vm_compute. exact I.
  - vm_compute. reflexivity.
Defined.

(** The pass on the test state dispatches the log action and the removal
    of [b] and nothing about [a] or [c]. *)
Example removeDisabledManifests_example :
  removeDisabledManifests plainQuote testState
  = [LogAction "b" "unqueue:b" InfoLvl "Will not build resource 'b': it is disabled";
     RemoveFromTriggerQueueAction "b"].
Proof. vm_compute. reflexivity. Qed.

End TriggerQueueProperties.

(** * Further properties of the trigger queue subscriber *)

Section QueueDocumentProperties.
Import Configs.

(** Two documents written by the loop of [fromState] are equal exactly
    when the queues are equal and agree on the reason codes. *)
Lemma published_eq_iff state1 state2 (l1 l2 : list string) (data1 data2 : gmap string string) :
  published state1 l1 data1 -> published state2 l2 data2 ->
  data1 = data2
  <-> l1 = l2 /\ forall mn, mn ∈ l1 -> reasonCode state1 mn = reasonCode state2 mn.
Proof.
  intros [Hf1 Ho1] [Hf2 Ho2]. split.
  - intros <-.
    assert (Hsub : forall (l l' : list string) (s s' : EngineState),
              (forall (i : nat) (mn : string), l !! i = Some mn ->
                 data1 !! (pretty i +:+ "-name") = Some mn
                 /\ data1 !! (pretty i +:+ "-reason-code") = reasonCode s mn) ->
              (forall k v, data1 !! k = Some v ->
                 exists i mn, l' !! i = Some mn
                   /\ ((k = pretty i +:+ "-name" /\ v = mn)
                       \/ (k = pretty i +:+ "-reason-code" /\ reasonCode s' mn = Some v))) ->
              forall (i : nat) (mn : string), l !! i = Some mn -> l' !! i = Some mn).
    { intros l l' s s' Hf Ho i mn Hi. destruct (Hf i mn Hi) as [Hname _].
      destruct (Ho _ _ Hname) as (j & mn' & Hj & [[Hk ->]|[Hk _]]).
      - apply name_key_inj in Hk. by subst j.
      - by apply name_key_ne_reason_key in Hk. }
    assert (Hl : l1 = l2).
    { apply list_eq. intros i.
      destruct (l1 !! i) as [mn|] eqn:H1.
      - symmetry. by apply (Hsub l1 l2 state1 state2).
      - destruct (l2 !! i) as [mn|] eqn:H2; [|done].
        apply (Hsub l2 l1 state2 state1) in H2; [congruence|done..]. }
    split; [done|]. subst l2. intros mn [i Hi]%list_elem_of_lookup.
    destruct (Hf1 i mn Hi) as [_ <-]. by destruct (Hf2 i mn Hi) as [_ <-].
  - intros [<- Hcodes]. apply map_eq. intros k. apply option_eq. intros v. split.
    + intros Hk. destruct (Ho1 k v Hk) as (i & mn & Hi & [[-> ->]|[-> Hv]]).
      * by destruct (Hf2 i mn Hi).
      * destruct (Hf2 i mn Hi) as [_ ->]. rewrite <-Hcodes; [done|].
        by apply list_elem_of_lookup_2 in Hi.
    + intros Hk. destruct (Ho2 k v Hk) as (i & mn & Hi & [[-> ->]|[-> Hv]]).
      * by destruct (Hf1 i mn Hi).
      * destruct (Hf1 i mn Hi) as [_ ->]. rewrite Hcodes; [done|].
        by apply list_elem_of_lookup_2 in Hi.
Qed.

(** X15: the published document determines the queue: the data computed
    from two states are equal exactly when the two queues hold the same
    names in the same order and each queued name has the same reason
    code, or none, in both states.  Nothing else of the state is
    published. *)
Theorem fromState_data_determines_queue (name1 name2 : string) (state1 state2 : EngineState) :
  Data (fromState name1 state1) = Data (fromState name2 state2)
  <-> TriggerQueue state1 = TriggerQueue state2
      /\ forall mn, mn ∈ TriggerQueue state1 ->
           (fun ms => pretty (TriggerReason ms)) <$> (ManifestStates state1 !! mn)
           = (fun ms => pretty (TriggerReason ms)) <$> (ManifestStates state2 !! mn).
Proof.
  apply (published_eq_iff state1 state2); apply fromState_loop_published.
Qed.

End QueueDocumentProperties.

Section PassSequences.
Import Configs.
Context (TriggerQueueName : string) (Quote : string -> string) `{!ConfigMapClient}.

Implicit Types (s : TriggerQueueSubscriber) (cl : configMaps) (state : EngineState).

(** X16: a pass whose upsert fails leaves the subscriber as it was, so
    the change is not taken as published: the next pass over the same
    state attempts the same upsert again. *)
Theorem OnChange_failed_upsert_is_retried s cl state e :
  let p1 := OnChange TriggerQueueName Quote s cl state false in
  let p2 := OnChange TriggerQueueName Quote (passSubscriber p1) (passClient p1) state false in
  passErr p1 = Some e ->
  passSubscriber p1 = s
  /\ passWrites p1 = [fromState TriggerQueueName state]
  /\ passWrites p2 = [fromState TriggerQueueName state].
Proof.
  intros p1 p2 Herr.
  assert (Hs : passSubscriber p1 = s /\ passWrites p1 = [fromState TriggerQueueName state]
               /\ match lastUpdate s with
                  | Some last =>
                      DeepEqualData (Data (fromState TriggerQueueName state)) (Data last)
                  | None => false
                  end = false).
  { subst p2. unfold p1, OnChange in *.
    destruct (match lastUpdate s with Some _ => _ | None => _ end); [done|].
    destruct (CreateOrUpdate _ cl) as [cl' [e'|]]; done. }
  destruct Hs as (Hs & Hw & Hneq). split; [done|]. split; [done|].
  unfold p2. rewrite Hs. unfold OnChange. rewrite Hneq.
  by destruct (CreateOrUpdate _ (passClient p1)) as [cl' [e'|]].
Qed.

(** X23: what a pass dispatches and what it publishes do not depend on
    each other: whether or not the upsert is made, and whether or not it
    succeeds, the pass dispatches the two eviction actions of every
    queued entry whose resource is disabled, in queue order, and nothing
    else; and a document it upserts still lists every queued entry,
    the evicted ones included. *)
Theorem OnChange_evicts_and_publishes_independently s cl state :
  let p := OnChange TriggerQueueName Quote s cl state false in
  passDispatched p
  = (TriggerQueue state ≫= fun mn => if isDisabled state mn then eviction Quote mn else [])
  /\ forall w, w ∈ passWrites p ->
       ConfigMapName w = TriggerQueueName
       /\ forall i mn, TriggerQueue state !! i = Some mn ->
            Data w !! (pretty i +:+ "-name") = Some mn.
Proof.
  intros p.
  assert (Hd : passDispatched p = removeDisabledManifests Quote state
               /\ (passWrites p = [] \/ passWrites p = [fromState TriggerQueueName state])).
  { unfold p, OnChange.
    destruct (match lastUpdate s with Some _ => _ | None => _ end); [by auto|].
    destruct (CreateOrUpdate _ cl) as [cl' [e|]]; by auto. }
  destruct Hd as [-> Hw]. split.
  - unfold removeDisabledManifests. by rewrite removeDisabledStep_fold.
  - intros w Hin. destruct Hw as [Hw|Hw]; rewrite Hw in Hin; [by apply elem_of_nil in Hin|].
    apply list_elem_of_singleton in Hin as ->. split; [done|].
    intros i mn Hi.
    by destruct (proj1 (fromState_loop_published state (TriggerQueue state)) i mn Hi).
Qed.

(** A sequence of passes, each with the state it sees and whether the
    change is log-only: the subscriber and the client after the last
    pass, and all the upserts made, oldest first. *)
Definition runPasses (changes : list (EngineState * bool)) s cl
    : TriggerQueueSubscriber * configMaps * list ConfigMap :=
  fold_left
    (fun acc change =>
       let p := OnChange TriggerQueueName Quote acc.1.1 acc.1.2 change.1 change.2 in
       (passSubscriber p, passClient p, acc.2 ++ passWrites p))
    changes (s, cl, []).

(** The client never refuses an upsert. *)
Definition reliable : Prop := forall obj cl, (CreateOrUpdate obj cl).2 = None.

Lemma runPasses_snoc changes change s cl :
  runPasses (changes ++ [change]) s cl
  = let acc := runPasses changes s cl in
    let p := OnChange TriggerQueueName Quote acc.1.1 acc.1.2 change.1 change.2 in
    (passSubscriber p, passClient p, acc.2 ++ passWrites p).
Proof. unfold runPasses. by rewrite fold_left_app. Qed.

(** With a reliable client the subscriber remembers the last upsert, and
    the last upsert is the document of the last change that was not
    log-only. *)
Lemma runPasses_invariant changes cl :
  reliable ->
  let acc := runPasses changes NewTriggerQueueSubscriber cl in
  lastUpdate acc.1.1 = last acc.2
  /\ (forall i w1 w2, acc.2 !! i = Some w1 -> acc.2 !! S i = Some w2 -> Data w1 <> Data w2)
  /\ match last (filter (fun change => change.2 = false) changes) with
     | Some change =>
         exists w, last acc.2 = Some w
                   /\ ConfigMapName w = TriggerQueueName
                   /\ Data w = Data (fromState TriggerQueueName change.1)
     | None => acc.2 = []
     end.
Proof.
  intros Hrel. induction changes as [|[state isLogOnly] changes IH] using rev_ind; [done|].
  rewrite runPasses_snoc. cbv zeta in *.
  destruct (runPasses changes NewTriggerQueueSubscriber cl) as [[s cl'] writes].
  cbn [fst snd] in *. destruct IH as (Hlast & Hadj & Hdoc).
  rewrite filter_app, filter_cons, filter_nil. cbn [snd fst].
  unfold OnChange. destruct isLogOnly.
  { rewrite decide_False by done. cbn [passSubscriber passWrites]. by rewrite !app_nil_r. }
  rewrite decide_True by done. rewrite last_snoc.
  destruct (match lastUpdate s with Some _ => _ | None => _ end) eqn:Hsame.
  - cbn [passSubscriber passWrites]. rewrite app_nil_r. split; [done|]. split; [done|].
    destruct (lastUpdate s) as [w|] eqn:Hs; [|done].
    exists w. split; [done|]. unfold DeepEqualData in Hsame.
    apply bool_decide_eq_true in Hsame. split; [|done].
    destruct (last (filter _ changes)) as [change|].
    + destruct Hdoc as (w' & Hw' & Hname & _). rewrite Hw' in Hlast.
      by injection Hlast as ->.
    + rewrite Hdoc in Hlast. done.
  - pose proof (Hrel (mkConfigMap (ConfigMapName (fromState TriggerQueueName state))
                        (Data (fromState TriggerQueueName state))) cl') as Hok.
    destruct (CreateOrUpdate _ cl') as [cl'' err]. simpl in Hok. subst err.
    cbn [passSubscriber passWrites lastUpdate]. rewrite last_snoc.
    split; [done|]. split; [|by eexists].
    intros i w1 w2 H1 H2.
    destruct (decide (S i < length writes)%nat) as [Hlt|Hge].
    + rewrite lookup_app_l in H1 by lia. rewrite lookup_app_l in H2 by done. by eapply Hadj.
    + apply lookup_lt_Some in H2 as Hbound. rewrite length_app in Hbound. simpl in Hbound.
      assert (S i = length writes) as Hi by lia.
      rewrite Hi, lookup_app_r, Nat.sub_diag in H2 by lia. injection H2 as <-.
      rewrite lookup_app_l in H1 by lia.
      assert (last writes = Some w1) as Hw1.
      { rewrite last_lookup. rewrite <-Hi. simpl. done. }
      rewrite <-Hlast in Hw1. rewrite Hw1 in Hsame. unfold DeepEqualData in Hsame.
      apply bool_decide_eq_false in Hsame. simpl. intros Heq. apply Hsame. by rewrite Heq.
Qed.

(** X17: over any sequence of changes, a new subscriber in front of a
    client that never refuses an upsert publishes no document twice in a
    row, and the document published last is that of the last change
    that was not log-only; if every change was log-only nothing is
    published. *)
Theorem runPasses_publishes_each_change_once changes cl :
  reliable ->
  let writes := (runPasses changes NewTriggerQueueSubscriber cl).2 in
  (forall i w1 w2, writes !! i = Some w1 -> writes !! S i = Some w2 -> Data w1 <> Data w2)
  /\ match last (filter (fun change => change.2 = false) changes) with
     | Some change =>
         exists w, last writes = Some w
                   /\ ConfigMapName w = TriggerQueueName
                   /\ Data w = Data (fromState TriggerQueueName change.1)
     | None => writes = []
     end.
Proof.
  intros Hrel writes. by destruct (runPasses_invariant changes cl Hrel) as (_ & ? & ?).
Qed.

End PassSequences.

Section PassSequencesExample.
Import Configs.

Lemma OnChange_failed_upsert_is_retried_witness :
  let failing : ConfigMapClient :=
    {| configMaps := nat; CreateOrUpdate obj cl := (S cl, Some "refused") |} in
  let p1 := @OnChange "tilt-trigger-queue" plainQuote failing
              NewTriggerQueueSubscriber 0%nat testState false in
  let p2 := @OnChange "tilt-trigger-queue" plainQuote failing
              (passSubscriber p1) (passClient p1) testState false in
  passSubscriber p1 = NewTriggerQueueSubscriber
  /\ passWrites p1 = [fromState "tilt-trigger-queue" testState]
  /\ passWrites p2 = [fromState "tilt-trigger-queue" testState].
Proof.
  intros failing.
  apply (@OnChange_failed_upsert_is_retried "tilt-trigger-queue" plainQuote failing
           NewTriggerQueueSubscriber 0%nat testState "refused").
  reflexivity.
Defined.

Lemma runPasses_publishes_each_change_once_witness :
  let changes := [(testState, false); (testState, true); (testState, false)] in
  let writes :=
    (@runPasses "tilt-trigger-queue" plainQuote logClient changes
       NewTriggerQueueSubscriber []).2 in
  (forall i w1 w2, writes !! i = Some w1 -> writes !! S i = Some w2 -> Data w1 <> Data w2)
  /\ exists w, last writes = Some w
               /\ ConfigMapName w = "tilt-trigger-queue"
               /\ Data w = Data (fromState "tilt-trigger-queue" testState).
Proof.
  intros changes.
  apply (@runPasses_publishes_each_change_once "tilt-trigger-queue" plainQuote logClient
           changes []).
  intros obj cl. reflexivity.
Defined.

End PassSequencesExample.

(** * Properties of the process-server controller *)

Section ServerControllerProperties.
Import Local.
Context {Probe : Type} `{!EqDecision Probe} `{!Names}.

Implicit Types (c : ServerController Probe) (server : CmdServer Probe).
Implicit Types (cmd : Cmd Probe) (a : Action Probe) (name : string).

(** The [CmdSpec] the server asks for. *)
Definition wantedSpec server : CmdSpec Probe :=
  mkCmdSpec (ServerArgs (ServerSpec server)) (ServerDir (ServerSpec server))
    (ServerEnv (ServerSpec server)) (ServerReadinessProbe (ServerSpec server)).

(** A Cmd was created for the server with the spec and the trigger time
    it asks for now. *)
Definition upToDate c server : bool :=
  match createdCmds c !! ServerName server with
  | Some created =>
      DeepEqual (Spec created) (wantedSpec server)
      && Time.Equal (default Time.zero (createdTriggerTime c !! ServerName server))
           (TriggerTime (ServerSpec server))
  | None => false
  end.

(** The Cmd [reconcile] creates, and the controller after creating it. *)
Definition newCmd c server : Cmd Probe :=
  mkCmd
    (mkObjectMeta (ServerName server +:+ "-serve-" +:+ pretty (cmdCount c + 1)%Z)
       [mkOwnerReference (ServerName server) "CmdServer"]
       {[ AnnotationSpanID := SpanIDForServeLog (cmdCount c + 1)%Z ]}
       {[ LabelManifest := ServerName server ]})
    (wantedSpec server).

Definition afterCreate c server : ServerController Probe :=
  mkServerController (<[ServerName server := newCmd c server]> (createdCmds c))
    (<[ServerName server := TriggerTime (ServerSpec server)]> (createdTriggerTime c))
    (<[ServerName server := false]> (deletingCmds c)) (cmdCount c + 1)%Z.

Definition afterDelete c server : ServerController Probe :=
  mkServerController (createdCmds c) (createdTriggerTime c)
    (<[ServerName server := true]> (deletingCmds c)) (cmdCount c).

(** The four outcomes of one pass. *)
Lemma reconcile_cases c server :
  let name := ServerName server in
  let status := ServerStatus server in
  (reconcile c server = (c, [])
   /\ (upToDate c server = true
       \/ (is_Some (createdCmds c !! name) /\ CmdName status = "")
       \/ (is_Some (createdCmds c !! name) /\ Terminated (CmdStatusOf status) = None
           /\ default false (deletingCmds c !! name) = true)))
  \/ (reconcile c server = (afterDelete c server, [CmdDeleteAction (CmdName status)])
      /\ is_Some (createdCmds c !! name) /\ upToDate c server = false
      /\ CmdName status <> "" /\ Terminated (CmdStatusOf status) = None
      /\ default false (deletingCmds c !! name) = false)
  \/ (reconcile c server = (afterCreate c server, [CmdCreateAction (newCmd c server)])
      /\ upToDate c server = false
      /\ (createdCmds c !! name = None
          \/ (CmdName status <> "" /\ is_Some (Terminated (CmdStatusOf status))))).
Proof.
  intros name status. unfold reconcile, upToDate. fold name. fold status. fold (wantedSpec server).
  destruct (createdCmds c !! name) as [created|] eqn:Hc.
  - destruct (DeepEqual (Spec created) (wantedSpec server)
              && Time.Equal (default Time.zero (createdTriggerTime c !! name))
                   (TriggerTime (ServerSpec server))) eqn:Hup.
    { left. split; [done|]. by left. }
    rewrite (bool_decide_eq_true_2 (is_Some (Some created))) by eauto. cbn [andb].
    case_bool_decide as Hn.
    { left. split; [done|]. right. left. eauto. }
    case_bool_decide as Ht.
    + destruct (default false (deletingCmds c !! name)) eqn:Hd; cbn [negb].
      * left. split; [done|]. right. right. eauto.
      * right. left. repeat split; eauto.
    + right. right. split; [done|]. split; [done|]. right. split; [done|].
      destruct (Terminated (CmdStatusOf status)); [eauto|done].
  - rewrite (bool_decide_eq_false_2 (is_Some None)) by (intros [? ?]; done). cbn [andb].
    right. right. split; [done|]. split; [done|]. by left.
Qed.

(** ** Sequences of passes *)

(** The Cmds created for each server name, newest first, each with
    whether it has reached a terminal status; and the actions dispatched
    so far, each with the name of the server whose pass dispatched it. *)
Record system := mkSystem {
  controller : ServerController Probe;
  cmds : gmap string (list (Cmd Probe * bool));
  dispatched : list (string * Action Probe)
}.

Definition initialSystem : system := mkSystem NewServerController ∅ [].

(** A pass of [reconcile] for a server, or the [i]-th Cmd of a server
    reaching a terminal status. *)
Inductive event :=
| Reconcile (server : CmdServer Probe)
| Terminate (name : string) (i : nat).

(** A created Cmd belongs to the servers its owner references name, as
    [determineServers] reads them. *)
Definition recordCmd cmd (w : gmap string (list (Cmd Probe * bool)))
    : gmap string (list (Cmd Probe * bool)) :=
  fold_left
    (fun w ref =>
       if bool_decide (RefKind ref = "CmdServer")
       then <[RefName ref := (cmd, false) :: default [] (w !! RefName ref)]> w
       else w)
    (OwnerReferences (CmdMeta cmd)) w.

Definition applyAction (w : gmap string (list (Cmd Probe * bool))) a
    : gmap string (list (Cmd Probe * bool)) :=
  match a with
  | CmdCreateAction cmd => recordCmd cmd w
  | CmdDeleteAction _ => w
  end.

(** The status handed to a pass is that of the Cmd created last for the
    server: it reports a terminal status only if that Cmd has one. *)
Definition soundStatus (sys : system) server : bool :=
  match Terminated (CmdStatusOf (ServerStatus server)), cmds sys !! ServerName server with
  | Some _, Some ((_, terminal) :: _) => terminal
  | _, _ => true
  end.

Definition step (sys : system) (ev : event) : option system :=
  match ev with
  | Reconcile server =>
      if soundStatus sys server
      then
        let r := reconcile (controller sys) server in
        Some (mkSystem r.1 (fold_left applyAction r.2 (cmds sys))
                (dispatched sys ++ map (pair (ServerName server)) r.2))
      else None
  | Terminate name i =>
      Some (mkSystem (controller sys)
              (alter (alter (fun ct => (ct.1, true)) i) name (cmds sys))
              (dispatched sys))
  end.

Definition runEvents (evs : list event) (sys : system) : option system :=
  fold_left (fun osys ev => osys ≫= fun sys => step sys ev) evs (Some sys).

(** The Cmds of a server that have not reached a terminal status. *)
Definition liveCmds name (sys : system) : nat :=
  length (filter (fun ct => ct.2 = false) (default [] (cmds sys !! name))).












End ServerControllerProperties.

(** * Passes of the server controller and [determineServers] *)

Section PassProperties.
Import Local.
Local Open Scope Z_scope.
Context {Probe : Type} `{!EqDecision Probe} `{!Names}.

Implicit Types (c : ServerController Probe) (server : CmdServer Probe).
Implicit Types (servers : list (CmdServer Probe)) (name : string).

(** A pass for the server has nothing to do: the Cmd created last is the
    one asked for, or the controller waits for it to appear, or it waits
    for a delete it has already requested. *)
Definition settled c server : bool :=
  upToDate c server
  || bool_decide (is_Some (createdCmds c !! ServerName server))
     && (bool_decide (CmdName (ServerStatus server) = "")
         || bool_decide (Terminated (CmdStatusOf (ServerStatus server)) = None)
            && default false (deletingCmds c !! ServerName server)).

Lemma reconcile_settled c server :
  if settled c server
  then reconcile c server = (c, [])
  else (reconcile c server).2 <> [].
Proof.
  unfold settled.
  destruct (reconcile_cases c server)
    as [[-> Hwhy]|[(-> & Hc & Hup & Hn & Ht & Hd)|(-> & Hup & Hwhy)]].
  - destruct Hwhy as [->|[[Hc Hn]|(Hc & Ht & Hd)]]; [done|..].
    + rewrite (bool_decide_eq_true_2 _ Hc), (bool_decide_eq_true_2 _ Hn).
      by rewrite orb_true_r.
    + rewrite (bool_decide_eq_true_2 _ Hc), (bool_decide_eq_true_2 _ Ht), Hd.
      by rewrite !orb_true_r.
  - rewrite Hup, Hd, (bool_decide_eq_false_2 _ Hn), andb_false_r, andb_false_r. done.
  - rewrite Hup. destruct Hwhy as [Hnone|[Hn [term Hterm]]].
    + rewrite (bool_decide_eq_false_2 (is_Some _)); [done|]. rewrite Hnone. by intros [? ?].
    + rewrite (bool_decide_eq_false_2 _ Hn).
      rewrite (bool_decide_eq_false_2 (Terminated _ = None)) by (by rewrite Hterm).
      by rewrite andb_false_r.
Qed.

Lemma settled_after_reconcile c server : settled (reconcile c server).1 server = true.
Proof.
  destruct (reconcile_cases c server)
    as [[Hr Hwhy]|[(-> & Hc & Hup & Hn & Ht & Hd)|(-> & Hup & Hwhy)]].
  - pose proof (reconcile_settled c server) as Hs.
    destruct (settled c server) eqn:Hset; [by rewrite Hr|]. by rewrite Hr in Hs.
  - unfold settled. cbn [fst afterDelete createdCmds deletingCmds].
    rewrite (bool_decide_eq_true_2 _ Hc), (bool_decide_eq_true_2 _ Ht), lookup_insert_eq.
    by rewrite !orb_true_r.
  - unfold settled, upToDate. cbn [fst afterCreate createdCmds createdTriggerTime].
    rewrite !lookup_insert_eq. cbn [newCmd Spec default]. unfold DeepEqual, Time.Equal.
    by rewrite bool_decide_eq_true_2, Z.eqb_refl by done.
Qed.

(** X18: [reconcile] is idempotent: a second pass for the same server,
    with the same spec and status, dispatches nothing and leaves the
    controller as the first pass left it. *)
Theorem reconcile_idempotent c server :
  reconcile (reconcile c server).1 server = ((reconcile c server).1, []).
Proof.
  pose proof (reconcile_settled (reconcile c server).1 server) as Hs.
  by rewrite settled_after_reconcile in Hs.
Qed.










End PassProperties.

Section CmdNames.
Import Local.
Local Open Scope Z_scope.
Context {Probe : Type} `{!EqDecision Probe} `{!Names}.

Implicit Types (c : ServerController Probe) (server : CmdServer Probe).
Implicit Types (servers : list (CmdServer Probe)) (name : string).






(** The names of the Cmds whose creation was requested. *)
Definition createdNames (acts : list (Action Probe)) : list string :=
  omap (fun a => match a with
                 | CmdCreateAction cmd => Some (Name (CmdMeta cmd))
                 | CmdDeleteAction _ => None
                 end) acts.





End CmdNames.

Section DetermineServersProperties.
Import Local.
Local Open Scope Z_scope.
Context {Probe : Type} `{!EqDecision Probe} `{!Names} `{!Configs.RangeOrder}.
Context (Empty : ServeCmd -> bool).

Implicit Types (state : EngineState Probe) (mt : ManifestTarget Probe).
Implicit Types (cmd : Cmd Probe) (name : string).

(** The Cmd has an owner reference of kind [CmdServer] to the name. *)
Definition ownedBy cmd name : Prop :=
  exists ref, ref ∈ OwnerReferences (CmdMeta cmd)
              /\ RefKind ref = "CmdServer" /\ RefName ref = name.

Lemma ownedCmds_refs (refs : list OwnerReference) (v : Cmd Probe * CmdStatus)
    (m : gmap string (Cmd Probe * CmdStatus)) name :
  let m' :=
    fold_left
      (fun ownedCmds ref =>
         if bool_decide (RefKind ref <> "CmdServer") then ownedCmds
         else <[RefName ref := v]> ownedCmds) refs m in
  (m' !! name = Some v
   /\ exists ref, ref ∈ refs /\ RefKind ref = "CmdServer" /\ RefName ref = name)
  \/ (m' !! name = m !! name
      /\ ~ exists ref, ref ∈ refs /\ RefKind ref = "CmdServer" /\ RefName ref = name).
Proof.
  revert m. induction refs as [|ref refs IH]; intros m; cbn [fold_left].
  { right. split; [done|]. intros (ref & Hin & _). by apply elem_of_nil in Hin. }
  cbv zeta in IH. case_bool_decide as Hkind.
  - destruct (IH m) as [[Hv (ref' & Hin & Hk & Hn)]|[Hm Hnone]].
    + left. split; [done|]. exists ref'. split; [by right|done].
    + right. split; [done|]. intros (ref' & [->|Hin]%elem_of_cons & Hk & Hn); [done|].
      apply Hnone. by exists ref'.
  - assert (RefKind ref = "CmdServer") as Hk by (by destruct (decide (RefKind ref = "CmdServer"))).
    destruct (IH (<[RefName ref := v]> m)) as [[Hv (ref' & Hin & Hk' & Hn)]|[Hm Hnone]].
    + left. split; [done|]. exists ref'. split; [by right|done].
    + destruct (decide (RefName ref = name)) as [Heq|Hne].
      * left. rewrite Hm, <-Heq, lookup_insert_eq. split; [done|].
        exists ref. split; [by left|done].
      * right. rewrite Hm, lookup_insert_ne by done. split; [done|].
        intros (ref' & [->|Hin]%elem_of_cons & Hk' & Hn); [done|].
        apply Hnone. by exists ref'.
Qed.

Lemma ownedCmds_entries (l : list (string * (Cmd Probe * CmdStatus)))
    (m : gmap string (Cmd Probe * CmdStatus)) name :
  let m' :=
    fold_left
      (fun ownedCmds kv =>
         fold_left
           (fun ownedCmds ref =>
              if bool_decide (RefKind ref <> "CmdServer") then ownedCmds
              else <[RefName ref := kv.2]> ownedCmds)
           (OwnerReferences (CmdMeta kv.2.1)) ownedCmds) l m in
  (exists kv, kv ∈ l /\ m' !! name = Some kv.2 /\ ownedBy kv.2.1 name)
  \/ (m' !! name = m !! name /\ forall kv, kv ∈ l -> ~ ownedBy kv.2.1 name).
Proof.
  revert m. induction l as [|kv l IH]; intros m; cbn [fold_left].
  { right. split; [done|]. intros kv Hin. by apply elem_of_nil in Hin. }
  cbv zeta in IH.
  destruct (IH (fold_left
                  (fun ownedCmds ref =>
                     if bool_decide (RefKind ref <> "CmdServer") then ownedCmds
                     else <[RefName ref := kv.2]> ownedCmds)
                  (OwnerReferences (CmdMeta kv.2.1)) m))
    as [(kv' & Hin & Hv & Hown)|[Hm Hnone]].
  - left. exists kv'. split; [by right|done].
  - destruct (ownedCmds_refs (OwnerReferences (CmdMeta kv.2.1)) kv.2 m name)
      as [[Hv Hown]|[Hm' Hnot]].
    + left. exists kv. split; [by left|]. split; [by rewrite Hm|done].
    + right. split; [by rewrite Hm|].
      intros kv' [->|Hin]%elem_of_cons; [done|by apply Hnone].
Qed.

(** The map [ownedCmds] holds, for a name, a Cmd of the state that is
    owned by it, and nothing only when the state has no such Cmd. *)
Lemma ownedCmds_lookup state name :
  match ownedCmds state !! name with
  | Some v => exists k, Cmds state !! k = Some v /\ ownedBy v.1 name
  | None => forall k v, Cmds state !! k = Some v -> ~ ownedBy v.1 name
  end.
Proof.
  unfold ownedCmds.
  destruct (ownedCmds_entries (Configs.range (Cmds state)) ∅ name)
    as [([k v] & Hin & -> & Hown)|[-> Hnone]].
  - exists k. split; [by apply range_elem|done].
  - rewrite lookup_empty. intros k v Hk. apply (Hnone (k, v)). by apply range_elem.
Qed.

(** The target gives rise to a server: it is local, has a serve
    command and has been deployed. *)
Definition serves mt : bool :=
  match LocalTargetOf mt with
  | Some lt => negb (Empty (ServeCmdOf lt) || Time.IsZero (LastSuccessfulDeployTime mt))
  | None => false
  end.

(** The server inferred from a target and the Cmd found for its name. *)
Definition serverOf state mt : option (CmdServer Probe) :=
  match LocalTargetOf mt with
  | Some lt =>
      if Empty (ServeCmdOf lt) || Time.IsZero (LastSuccessfulDeployTime mt) then None
      else
        Some (mkCmdServer (TargetName mt)
                (mkCmdServerSpec (Argv (ServeCmdOf lt)) (ServeDir (ServeCmdOf lt))
                   (ServeEnv (ServeCmdOf lt)) (LocalReadinessProbe lt)
                   (LastSuccessfulDeployTime mt))
                (match ownedCmds state !! TargetName mt with
                 | Some cmd => mkCmdServerStatus (Name (CmdMeta cmd.1)) cmd.2
                 | None => mkCmdServerStatus "" (mkCmdStatus None)
                 end))
  | None => None
  end.

Lemma determineServers_omap state :
  determineServers Empty state = omap (serverOf state) (Targets state).
Proof.
  unfold determineServers. cbv zeta.
  cut (forall r : list (CmdServer Probe),
         fold_left
           (fun r mt =>
              match LocalTargetOf mt with
              | None => r
              | Some lt =>
                  if Empty (ServeCmdOf lt) || Time.IsZero (LastSuccessfulDeployTime mt)
                  then r
                  else
                    r ++ [mkCmdServer (TargetName mt)
                            (mkCmdServerSpec (Argv (ServeCmdOf lt)) (ServeDir (ServeCmdOf lt))
                               (ServeEnv (ServeCmdOf lt)) (LocalReadinessProbe lt)
                               (LastSuccessfulDeployTime mt))
                            (match ownedCmds state !! TargetName mt with
                             | Some cmd => mkCmdServerStatus (Name (CmdMeta cmd.1)) cmd.2
                             | None => mkCmdServerStatus "" (mkCmdStatus None)
                             end)]
              end) (Targets state) r
         = r ++ omap (serverOf state) (Targets state)).
  { intros Hcut. apply (Hcut []). }
  induction (Targets state) as [|mt mts IH]; intros r; cbn [fold_left].
  { by rewrite app_nil_r. }
  rewrite IH.
  change (omap (serverOf state) (mt :: mts))
    with (match serverOf state mt with
          | Some server => server :: omap (serverOf state) mts
          | None => omap (serverOf state) mts
          end).
  generalize (omap (serverOf state) mts). intros rest. unfold serverOf.
  destruct (LocalTargetOf mt) as [lt|]; [|done].
  destruct (Empty (ServeCmdOf lt) || Time.IsZero (LastSuccessfulDeployTime mt)); [done|].
  by rewrite <-app_assoc.
Qed.

Lemma serverOf_serves state mt :
  match serverOf state mt with
  | Some server => serves mt = true /\ ServerName server = TargetName mt
  | None => serves mt = false
  end.
Proof.
  unfold serverOf, serves. destruct (LocalTargetOf mt) as [lt|]; [|done].
  by destruct (Empty (ServeCmdOf lt) || Time.IsZero (LastSuccessfulDeployTime mt)).
Qed.

Lemma determineServers_names state :
  ServerName <$> determineServers Empty state
  = TargetName <$> filter (fun mt => serves mt = true) (Targets state).
Proof.
  rewrite determineServers_omap.
  induction (Targets state) as [|mt mts IH]; [done|].
  rewrite filter_cons.
  change (omap (serverOf state) (mt :: mts))
    with (match serverOf state mt with
          | Some server => server :: omap (serverOf state) mts
          | None => omap (serverOf state) mts
          end).
  pose proof (serverOf_serves state mt) as Hmt.
  destruct (serverOf state mt) as [server|].
  - destruct Hmt as [Hs Hn]. rewrite decide_True by done.
    rewrite !fmap_cons. by rewrite IH, Hn.
  - rewrite decide_False by (by rewrite Hmt). apply IH.
Qed.

(** X21: [determineServers] infers one server per target that is local,
    has a serve command and has been deployed, in the order of the
    targets and under the name of the manifest, with the deploy time as
    trigger time.  The status of a server names a Cmd of the state that
    has an owner reference of kind [CmdServer] to the server, with the
    status of that Cmd; it is empty only when the state holds no such
    Cmd. *)
Theorem determineServers_infers_servers state :
  ServerName <$> determineServers Empty state
  = TargetName <$> filter (fun mt => serves mt = true) (Targets state)
  /\ forall server, server ∈ determineServers Empty state ->
       (exists mt lt,
          mt ∈ Targets state /\ LocalTargetOf mt = Some lt
          /\ ServerName server = TargetName mt
          /\ ServerSpec server
             = mkCmdServerSpec (Argv (ServeCmdOf lt)) (ServeDir (ServeCmdOf lt))
                 (ServeEnv (ServeCmdOf lt)) (LocalReadinessProbe lt)
                 (LastSuccessfulDeployTime mt)
          /\ LastSuccessfulDeployTime mt <> 0)
       /\ ((ServerStatus server = mkCmdServerStatus "" (mkCmdStatus None)
            /\ forall k v, Cmds state !! k = Some v -> ~ ownedBy v.1 (ServerName server))
           \/ (exists k v, Cmds state !! k = Some v
                 /\ ownedBy v.1 (ServerName server)
                 /\ ServerStatus server = mkCmdServerStatus (Name (CmdMeta v.1)) v.2)).
Proof.
  split; [apply determineServers_names|].
  intros server Hin. rewrite determineServers_omap in Hin.
  apply list_elem_of_omap in Hin as (mt & Hmt & Hserver).
  unfold serverOf in Hserver. destruct (LocalTargetOf mt) as [lt|] eqn:Hlt; [|done].
  destruct (Empty (ServeCmdOf lt) || Time.IsZero (LastSuccessfulDeployTime mt)) eqn:Hskip;
    [done|].
  injection Hserver as <-. cbn [ServerName ServerSpec ServerStatus]. split.
  - exists mt, lt. repeat split; try done.
    apply orb_false_iff in Hskip as [_ Hzero]. unfold Time.IsZero in Hzero.
    by apply Z.eqb_neq in Hzero.
  - pose proof (ownedCmds_lookup state (TargetName mt)) as Hown.
    destruct (ownedCmds state !! TargetName mt) as [v|].
    + right. destruct Hown as (k & Hk & Hown). by exists k, v.
    + left. done.
Qed.


End DetermineServersProperties.

(** ** A concrete server, for running the controller *)

Section ServerControllerExample.
Import Local.

Definition tiltNames : Names := {|
  AnnotationSpanID := "tilt.dev/span-id";
  LabelManifest := "tilt.dev/manifest";
  SpanIDForServeLog n := "localserve:" +:+ pretty n
|}.

(** The server [srv] asking for [args], with the status it was handed. *)
Definition srv (args : list string) (cmdName : string)
    (terminated : option CmdStateTerminated) : CmdServer unit :=
  mkCmdServer "srv" (mkCmdServerSpec args "." [] None 10%Z)
    (mkCmdServerStatus cmdName (mkCmdStatus terminated)).

(** A first pass creates [srv-serve-1]; the spec then changes while the
    Cmd runs (one delete request, repeated passes add none); after the
    Cmd has terminated the replacement [srv-serve-2] is created. *)
Definition exampleEvents : list (@event unit) :=
  [Reconcile (srv ["run"] "" None);
   Reconcile (srv ["run"; "-v"] "srv-serve-1" None);
   Reconcile (srv ["run"; "-v"] "srv-serve-1" None);
   Terminate "srv" 0;
   Reconcile (srv ["run"; "-v"] "srv-serve-1" (Some (mkCmdStateTerminated 0%Z)))].

Example runEvents_example :
  (fun sys => (snd <$> dispatched sys, liveCmds "srv" sys))
    <$> @runEvents unit _ tiltNames exampleEvents initialSystem
  = Some ([CmdCreateAction (@newCmd unit tiltNames NewServerController (srv ["run"] "" None));
           CmdDeleteAction "srv-serve-1";
           CmdCreateAction
             (mkCmd
                (mkObjectMeta "srv-serve-2" [mkOwnerReference "srv" "CmdServer"]
                   {[ "tilt.dev/span-id" := "localserve:2" ]}
                   {[ "tilt.dev/manifest" := "srv" ]})
                (mkCmdSpec ["run"; "-v"] "." [] None))],
          1%nat).
Proof. vm_compute. reflexivity. Qed.



End ServerControllerExample.

Section SubscriberExample.
Import Local.
Local Open Scope Z_scope.

(** A serve command is empty when it has no argument. *)
Definition noArgv (cmd : ServeCmd) : bool := bool_decide (Argv cmd = []).

(** The Cmd [web-serve-1], owned by the server [web] and running. *)
Definition webCmd : Cmd unit * CmdStatus :=
  (mkCmd
     (mkObjectMeta "web-serve-1" [mkOwnerReference "web" "CmdServer"]
        {[ "tilt.dev/span-id" := "localserve:1" ]} {[ "tilt.dev/manifest" := "web" ]})
     (mkCmdSpec ["run"] "." [] None),
   mkCmdStatus None).

(** Four targets: [web] serves and was deployed at 10; [job] is local
    without a serve command; [api] serves but was never deployed; [k8s]
    is not local. *)
Definition exampleState : EngineState unit :=
  mkEngineState {[ "web-serve-1" := webCmd ]}
    [mkManifestTarget "web" (Some (mkLocalTarget (mkServeCmd ["run"] "." []) None)) 10;
     mkManifestTarget "job" (Some (mkLocalTarget (mkServeCmd [] "." []) None)) 10;
     mkManifestTarget "api" (Some (mkLocalTarget (mkServeCmd ["serve"] "." []) None)) 0;
     mkManifestTarget "k8s" None 10].

(** Only [web] gives a server, and its status is that of [web-serve-1]. *)
Example determineServers_example :
  @determineServers unit mapOrder noArgv exampleState
  = [mkCmdServer "web" (mkCmdServerSpec ["run"] "." [] None 10)
       (mkCmdServerStatus "web-serve-1" (mkCmdStatus None))].
Proof. vm_compute. reflexivity. Qed.



(** The two passes above ask for [srv-serve-1] and then, the first Cmd
    having terminated, for [srv-serve-2]. *)
Example reconcileAll_example :
  createdNames
    (@reconcileAll unit _ tiltNames
       [srv ["run"] "" None;
        srv ["run"; "-v"] "srv-serve-1" (Some (mkCmdStateTerminated 0))]
       NewServerController).2
  = ["srv-serve-1"; "srv-serve-2"].
Proof. vm_compute. reflexivity. Qed.

End SubscriberExample.
